(** * Digital Velocity Index pipeline (src/main.py)

    A shallow embedding of the batch script: the three silo frames are
    cleaned, summed per composite key, left-joined, zero-filled and then
    indexed; the identity-desert ranking is derived from the result.

    Modelling conventions.
    - A text cell is a [string] whose characters are code points below 256.
    - A parsed date is a [Z] (a point on the time line); [None] in a key
      cell is pandas' NaN / NaT.
    - A measure cell is a count ([N]); a label that has no entry in a row's
      map is an empty (NaN) cell.
    - Sums of counts are exact here. The script adds int64 columns, which
      wrap around beyond 2^63 - 1 ([int64_sum]), or float64 columns (a
      column with an empty cell), which round beyond 2^53 ([float64_sum]).
      Statements about the value of a sum are therefore made for sums up
      to [exact_max] = 2^53, where the three agree ([int64_sum_exact],
      [float64_sum_exact]).
    - The index is a binary64 number: the division of step 5 is rounded
      to nearest, ties to even ([round64]), and a float is the rational it
      denotes ([Q]). Means of index values are exact rationals. *)

From Stdlib Require Import QArith Qpower Qabs Lqa.
From stdpp Require Import base option list sorting gmap strings.

Close Scope Q_scope.
Local Open Scope Z_scope.

(** ** Frames *)

(** The measure columns of a frame are listed by label in [columns]; the
    four key columns are fields of the row types below. *)
Record Frame (R : Type) := mkFrame { columns : list string; rows : list R }.
Arguments mkFrame {R} _ _.
Arguments columns {R} _.
Arguments rows {R} _.

(** A row of a silo frame as loaded ([D := string], the date still text)
    or after [pd.to_datetime] ([D := Z]). *)
Record Row (D : Type) := mkRow {
  date : option D;
  state : option string;
  district : option string;
  pincode : option Z;
  cells : gmap string N
}.
Arguments mkRow {D} _ _ _ _ _.
Arguments date {D} _.
Arguments state {D} _.
Arguments district {D} _.
Arguments pincode {D} _.
Arguments cells {D} _.

(** The group label of [groupby(['date','state','district','pincode'])]. *)
Record Key := mkKey {
  k_date : Z;
  k_state : string;
  k_district : string;
  k_pincode : Z
}.

#[global] Instance Key_eq_dec : EqDecision Key.
Proof. solve_decision. Defined.

(** A row of a frame returned by [groupby(...).sum()] or by [merge]: its
    key cells are group labels. *)
Record AggRow := mkAgg { key : Key; vals : gmap string N }.

#[global] Instance AggRow_eq_dec : EqDecision AggRow.
Proof. solve_decision. Defined.

(** ** Numbers: binary64 *)

Definition pow2 (e : Z) : Q := (2 ^ e)%Q.

(** The values binary64 can hold, overflow aside: m * 2^e with
    |m| < 2^53 and e >= -1074. *)
Definition is_double (q : Q) : Prop :=
  ∃ m e : Z, Z.abs m < 2 ^ 53 ∧ -1074 ≤ e ∧ (q == inject_Z m * pow2 e)%Q.

(** The integer nearest to n/d, for d > 0; of two equally near, the even
    one. *)
Definition round_half_even (n d : Z) : Z :=
  let q := n / d in
  match 2 * (n mod d) ?= d with
  | Lt => q
  | Gt => q + 1
  | Eq => if Z.even q then q else q + 1
  end.

(** The exponent k with 2^k <= x < 2^(k+1), for x > 0. *)
Definition floor_log2 (x : Q) : Z :=
  let e0 := Z.log2 (Qnum x) - Z.log2 (Zpos (Qden x)) in
  if Qle_bool (pow2 e0) x then e0 else e0 - 1.

(** The integer nearest to the rational y. *)
Definition rnd (y : Q) : Z := round_half_even (Qnum y) (Zpos (Qden y)).

(** Rounding of x > 0 to 53 significant bits: x lies in the binade of
    2^k, where the binary64 numbers are the multiples of 2^(k - 52); at
    the low end the spacing stays 2^(-1074), that of the subnormal
    numbers. Overflow is not modelled: no quotient or conversion of
    64-bit integers comes near it. *)
Definition round64_pos (x : Q) : Q :=
  let ex := Z.max (floor_log2 x - 52) (-1074) in
  (inject_Z (rnd (x / pow2 ex)) * pow2 ex)%Q.

(** Round to nearest, ties to even: the rounding of every binary64
    operation. *)
Definition round64 (x : Q) : Q :=
  let x := Qred x in
  match Qnum x with
  | 0 => 0%Q
  | Zpos _ => round64_pos x
  | Zneg _ => (- round64_pos (- x))%Q
  end.

(** 2^53: up to here every count is a binary64 number, and int64 and
    float64 additions give the same, exact, sum. *)
Definition exact_max : N := 9007199254740992%N.

(** An int64 count as a binary64 number. *)
Definition to_float (n : N) : Q := round64 (inject_Z (Z.of_N n)).

(** ** Step 2: cleaning *)

(** [errors=] of [pd.to_datetime]. *)
Inductive errors_policy := errors_raise | errors_coerce.

(** The date reader of pandas, taken as given: [guess_format] is the
    format pandas infers from one date text (none when it finds no
    format), [strptime] reads a text by a format, and [parse_one] reads a
    text on its own, which is what pandas falls back to when it has no
    format. *)
Record DateParser := mkParser {
  guess_format : string → option string;
  strptime : string → string → option Z;
  parse_one : string → option Z
}.

Fixpoint first_non_null {A} (col : list (option A)) : option A :=
  match col with
  | [] => None
  | Some a :: _ => Some a
  | None :: col' => first_non_null col'
  end.

(** How the texts of one column are read: by the format inferred from the
    first cell that is not empty, and one by one when no format is
    inferred from that cell. *)
Definition date_reader (P : DateParser) (col : list (option string))
    : string → option Z :=
  match first_non_null col ≫= guess_format P with
  | Some fmt => strptime P fmt
  | None => parse_one P
  end.

(** One cell of [pd.to_datetime(col, errors=...)], read by [parse]. The
    outer [None] is the exception raised under [errors='raise']; the inner
    [None] is NaT. *)
Definition to_datetime_cell (parse : string → option Z)
    (errors : errors_policy) (c : option string) : option (option Z) :=
  match c with
  | None => Some None
  | Some s =>
      match parse s with
      | Some t => Some (Some t)
      | None =>
          match errors with
          | errors_raise => None
          | errors_coerce => Some None
          end
      end
  end.

Definition to_datetime_row (parse : string → option Z)
    (errors : errors_policy) (r : Row string) : option (Row Z) :=
  d ← to_datetime_cell parse errors (date r);
  Some (mkRow d (state r) (district r) (pincode r) (cells r)).

(** [df['date'] = pd.to_datetime(df['date'], errors=...)]. *)
Definition to_datetime (P : DateParser) (errors : errors_policy)
    (df : Frame (Row string)) : option (Frame (Row Z)) :=
  rs ← mapM (to_datetime_row (date_reader P (date <$> rows df)) errors)
          (rows df);
  Some (mkFrame (columns df) rs).

(** [str.isspace] on the code points below 256. *)
Definition is_space (c : Ascii.ascii) : bool :=
  let n := Ascii.N_of_ascii c in
  ((9 <=? n) && (n <=? 13) || (28 <=? n) && (n <=? 32)
   || (n =? 133) || (n =? 160))%N.

Fixpoint lstrip (s : string) : string :=
  match s with
  | EmptyString => EmptyString
  | String c s' => if is_space c then lstrip s' else s
  end.

Fixpoint rstrip (s : string) : string :=
  match s with
  | EmptyString => EmptyString
  | String c s' =>
      match rstrip s' with
      | EmptyString => if is_space c then EmptyString else String c EmptyString
      | t => String c t
      end
  end.

(** [str.strip()]. *)
Definition strip (s : string) : string := rstrip (lstrip s).

(** What [strip] removes and what it leaves. *)
Fixpoint all_space (s : string) : bool :=
  match s with
  | EmptyString => true
  | String c s' => is_space c && all_space s'
  end.

Definition starts_with_space (s : string) : bool :=
  match s with
  | EmptyString => false
  | String c _ => is_space c
  end.

Fixpoint ends_with_space (s : string) : bool :=
  match s with
  | EmptyString => false
  | String c EmptyString => is_space c
  | String _ s' => ends_with_space s'
  end.

(** The dictionary passed to [replace] in [clean_district]. *)
Definition district_aliases : list (string * string) :=
  [("Bangalore Urban", "Bengaluru"); ("Bengaluru Urban", "Bengaluru")]%string.

Fixpoint alias_lookup (tbl : list (string * string)) (s : string)
    : option string :=
  match tbl with
  | [] => None
  | (a, c) :: tbl' => if String.eqb s a then Some c else alias_lookup tbl' s
  end.

(** [Series.replace(dict)]: a cell equal to a dictionary key becomes the
    key's value; every other cell is kept. *)
Definition replace (tbl : list (string * string)) (s : string) : string :=
  default s (alias_lookup tbl s).

Definition clean_district_cell (s : string) : string :=
  replace district_aliases (strip s).

Definition clean_district_row {D} (r : Row D) : Row D :=
  mkRow (date r) (state r) (clean_district_cell <$> district r)
        (pincode r) (cells r).

(** Whether [.str] accepts the column. A column that has rows and no text
    in any of them was not loaded as text, and [.str] raises
    AttributeError on it; a column without rows is accepted. *)
Definition is_text_column (col : list (option string)) : bool :=
  match col with
  | [] => true
  | _ => bool_decide (Exists is_Some col)
  end.

(** [clean_district(df)]; [None] is the AttributeError. *)
Definition clean_district {D} (df : Frame (Row D)) : option (Frame (Row D)) :=
  if is_text_column (district <$> rows df)
  then Some (mkFrame (columns df) (clean_district_row <$> rows df))
  else None.

(** Step 2 on one silo, as the script runs it. *)
Definition normalize (P : DateParser) (df : Frame (Row string))
    : option (Frame (Row Z)) :=
  to_datetime P errors_coerce df ≫= clean_district.

(** A row after step 2, its date read by [read]. *)
Definition normalize_row (read : string → option Z) (r : Row string) : Row Z :=
  mkRow (date r ≫= read) (state r) (clean_district_cell <$> district r)
        (pincode r) (cells r).

(** ** Step 3: groupby(...).sum() *)

(** A three-way comparison that orders its type strictly and totally. *)
Class CompareOrder {A : Type} (cmp : A → A → comparison) : Prop := {
  cmp_refl : ∀ a, cmp a a = Eq;
  cmp_eq : ∀ a b, cmp a b = Eq → a = b;
  cmp_antisym : ∀ a b, cmp b a = CompOpp (cmp a b);
  cmp_trans : ∀ a b c, cmp a b = Lt → cmp b c = Lt → cmp a c = Lt
}.

(** Lexicographic combination: the first difference decides. *)
Definition lex (c1 c2 : comparison) : comparison :=
  match c1 with Eq => c2 | _ => c1 end.

Definition pair_compare {A B : Type} (ca : A → A → comparison)
    (cb : B → B → comparison) (x y : A * B) : comparison :=
  lex (ca x.1 y.1) (cb x.2 y.2).

(** Group labels are emitted in ascending lexicographic order of
    (date, state, district, pincode). *)
Definition key_compare (a b : Key) : comparison :=
  match Z.compare (k_date a) (k_date b) with
  | Eq =>
      match String.compare (k_state a) (k_state b) with
      | Eq =>
          match String.compare (k_district a) (k_district b) with
          | Eq => Z.compare (k_pincode a) (k_pincode b)
          | c => c
          end
      | c => c
      end
  | c => c
  end.

Definition key_lt (a b : Key) : Prop := key_compare a b = Lt.

Definition key_tuple (k : Key) : Z * (string * (string * Z)) :=
  (k_date k, (k_state k, (k_district k, k_pincode k))).

Definition key_of_tuple (t : Z * (string * (string * Z))) : Key :=
  mkKey t.1 t.2.1 t.2.2.1 t.2.2.2.

(** The label of a row; a row with an empty key cell has none and is
    left out of every group ([dropna=True], the default). *)
Definition row_key (r : Row Z) : option Key :=
  d ← date r; s ← state r; di ← district r; p ← pincode r;
  Some (mkKey d s di p).

Section Grouping.
Context {K R A : Type}.
Variable cmp : K → K → comparison.
Variable label : R → option K.
Variable init : A.
Variable step : A → R → A.

(** One row is accumulated into the bucket of its label; buckets are
    kept in ascending label order. *)
Fixpoint bucket_add (k : K) (r : R) (bs : list (K * A)) : list (K * A) :=
  match bs with
  | [] => [(k, step init r)]
  | (k', a) :: bs' =>
      match cmp k k' with
      | Lt => (k, step init r) :: bs
      | Eq => (k', step a r) :: bs'
      | Gt => (k', a) :: bucket_add k r bs'
      end
  end.

Definition group_step (bs : list (K * A)) (r : R) : list (K * A) :=
  match label r with
  | Some k => bucket_add k r bs
  | None => bs
  end.

Definition group_rows (rs : list R) : list (K * A) :=
  fold_left group_step rs [].

(** The rows of the group labelled [k], in frame order. *)
Definition members `{EqDecision K} (k : K) (rs : list R) : list R :=
  filter (λ r, label r = Some k) rs.
End Grouping.

Definition zero_cells (cols : list string) : gmap string N :=
  list_to_map ((λ c, (c, 0%N)) <$> cols).

(** The running sum of a bucket: an empty cell adds nothing. *)
Definition add_cells (cols : list string) (acc : gmap string N) (r : Row Z)
    : gmap string N :=
  list_to_map
    ((λ c, (c, (default 0 (acc !! c) + default 0 (cells r !! c))%N)) <$> cols).

(** The arithmetic sum of column [c] over the rows [rs]. *)
Definition col_sum (c : string) (rs : list (Row Z)) : N :=
  foldr N.add 0%N ((λ r, default 0%N (cells r !! c)) <$> rs).

(** What [sum()] computes for a group. The cells of the column that are
    not empty are added in frame order: on an int64 column with
    wrap-around, on a float64 column (one with an empty cell somewhere in
    the frame) with the compensated summation of pandas, every operation
    rounded. *)
Definition present_cells (c : string) (rs : list (Row Z)) : list N :=
  omap (λ r, cells r !! c) rs.

(** The low 64 bits of an integer, read as a signed number. *)
Definition int64_wrap (z : Z) : Z := (z + 2 ^ 63) mod 2 ^ 64 - 2 ^ 63.

Definition int64_sum (vs : list N) : Z :=
  fold_left (λ acc v, int64_wrap (acc + Z.of_N v)) vs 0.

(** One step of the compensated summation on (sum, compensation). *)
Definition kahan_step (st : Q * Q) (v : N) : Q * Q :=
  let y := round64 (to_float v - st.2) in
  let t := round64 (st.1 + y) in
  (t, round64 (round64 (t - st.1) - y)).

Definition float64_sum (vs : list N) : Q :=
  (fold_left kahan_step vs (0%Q, 0%Q)).1.

(** [df.groupby(['date','state','district','pincode'], as_index=False).sum()]
    with the defaults [sort=True] and [dropna=True]: one pass over the rows
    adds each row's cells to the bucket of its key, rows without a key are
    skipped, and the buckets come out in ascending key order. *)
Definition groupby_sum (df : Frame (Row Z)) : Frame AggRow :=
  mkFrame (columns df)
    ((λ b, mkAgg b.1 b.2) <$>
       group_rows key_compare row_key (zero_cells (columns df))
         (add_cells (columns df)) (rows df)).

(** An aggregated row read back as a silo row. *)
Definition to_row (a : AggRow) : Row Z :=
  mkRow (Some (k_date (key a))) (Some (k_state (key a)))
        (Some (k_district (key a))) (Some (k_pincode (key a))) (vals a).

Definition to_frame (df : Frame AggRow) : Frame (Row Z) :=
  mkFrame (columns df) (to_row <$> rows df).

(** Every measure column of the frame has a value in the row, and the row
    has no other cell. *)
Definition complete (cols : list string) (r : Row Z) : Prop :=
  ∀ c, is_Some (cells r !! c) ↔ c ∈ cols.

(** Rows in ascending order of their labels. *)
Definition row_lt (a b : Row Z) : Prop :=
  ∃ ka kb, row_key a = Some ka ∧ row_key b = Some kb ∧ key_lt ka kb.

(** ** Step 4: merge(how='left') and fillna(0) *)

Definition join_row (l r : AggRow) : AggRow :=
  mkAgg (key l) (vals l ∪ vals r).

(** The rows a left row contributes: one per matching right row, or the
    left row alone, its right-hand cells empty. The measure labels of the
    two frames are taken to be distinct, as they are in the three silos. *)
Definition merge_row (R : list AggRow) (l : AggRow) : list AggRow :=
  match filter (λ r, key r = key l) R with
  | [] => [l]
  | ms => join_row l <$> ms
  end.

(** [L.merge(R, on=['date','state','district','pincode'], how='left')]. *)
Definition merge_left (L R : Frame AggRow) : Frame AggRow :=
  mkFrame (columns L ++ columns R) (rows L ≫= merge_row (rows R)).

Definition fillna_row (cols : list string) (r : AggRow) : AggRow :=
  mkAgg (key r) (vals r ∪ zero_cells cols).

(** [df.fillna(0, inplace=True)]. *)
Definition fillna0 (df : Frame AggRow) : Frame AggRow :=
  mkFrame (columns df) (fillna_row (columns df) <$> rows df).

(** The master table [df] of the script, for three frames that share no
    measure label. *)
Definition merged (E D B : Frame AggRow) : Frame AggRow :=
  fillna0 (merge_left (merge_left E D) B).

(** A measure label that both frames of a merge carry is renamed on each
    side, with the default suffixes of [merge]. *)
Definition suffixed (shared : list string) (sfx c : string) : string :=
  if bool_decide (c ∈ shared) then (c +:+ sfx)%string else c.

Definition rename_cells (f : string → string) (m : gmap string N)
    : gmap string N :=
  list_to_map (prod_map f id <$> map_to_list m).

Definition rename_columns (f : string → string) (df : Frame AggRow)
    : Frame AggRow :=
  mkFrame (f <$> columns df)
    ((λ r, mkAgg (key r) (rename_cells f (vals r))) <$> rows df).

(** [L.merge(R, on=['date','state','district','pincode'], how='left')]
    for any two frames with distinct labels each: the shared labels become
    label_x on the left and label_y on the right, then the rows are
    joined. [None] is the MergeError raised when the renaming yields a
    label twice. *)
Definition merge (L R : Frame AggRow) : option (Frame AggRow) :=
  let shared := filter (λ c, c ∈ columns R) (columns L) in
  let L' := rename_columns (suffixed shared "_x") L in
  let R' := rename_columns (suffixed shared "_y") R in
  if bool_decide (NoDup (columns L' ++ columns R'))
  then Some (merge_left L' R') else None.

(** Step 4 as the script runs it. *)
Definition master (E D B : Frame AggRow) : option (Frame AggRow) :=
  df ← merge E D; df' ← merge df B; Some (fillna0 df').

(** ** Step 5: the index *)

Record IndexedRow := mkIndexed {
  base : AggRow;
  enrolment_pressure : N;
  total_updates : N;
  DVI : Q
}.

(** [a + b + ...] on columns, left to right: what an int64 column holds
    is [int64_sum]; on float64 columns every addition is rounded. *)
Definition float64_plus (vs : list N) : Q :=
  fold_left (λ acc v, round64 (acc + to_float v)) vs 0%Q.

Definition dvi_denominator (ep tu : N) : N := (ep + tu + 1)%N.

(** [total_updates / (enrolment_pressure + total_updates + 1)]: the two
    integer operands are converted to binary64 and divided there. *)
Definition dvi (ep tu : N) : Q :=
  round64 (to_float tu / to_float (dvi_denominator ep tu))%Q.

(** The exact quotient of the formula. *)
Definition dvi_quotient (ep tu : N) : Q :=
  (inject_Z (Z.of_N tu) / inject_Z (Z.of_N (dvi_denominator ep tu)))%Q.

(** The largest binary64 number below 1. *)
Definition below_one : Q := (9007199254740991 # 9007199254740992)%Q.

(** The smallest index value a row with an update can get when its
    denominator is at most 2^53. *)
Definition least_index : Q := (1 # 9007199254740992)%Q.

(** The three derived columns of one row. A label that is absent from the
    row yields no result. The two sums are exact (see the conventions);
    the division is the binary64 one. *)
Definition index_row (r : AggRow) : option IndexedRow :=
  a05 ← vals r !! "age_0_5"%string;
  a517 ← vals r !! "age_5_17"%string;
  d517 ← vals r !! "demo_age_5_17"%string;
  d17 ← vals r !! "demo_age_17_"%string;
  b517 ← vals r !! "bio_age_5_17"%string;
  b17 ← vals r !! "bio_age_17_"%string;
  let ep := (a05 + a517)%N in
  let tu := (d517 + d17 + b517 + b17)%N in
  Some (mkIndexed r ep tu (dvi ep tu)).

(** The labels the index engine reads. *)
Definition index_columns : list string :=
  ["age_0_5"; "age_5_17"; "demo_age_5_17"; "demo_age_17_";
   "bio_age_5_17"; "bio_age_17_"]%string.

(** Step 5 on the frame; [None] is the KeyError raised for a label that
    is not a column of the frame, whether it has rows or not. *)
Definition index_engine (df : Frame AggRow) : option (list IndexedRow) :=
  if bool_decide (Forall (λ c, c ∈ columns df) index_columns)
  then mapM index_row (rows df) else None.

(** ** Step 6: identity deserts *)

(** The literal [0.1]: the binary64 number nearest to 1/10. *)
Definition desert_threshold : Q := round64 (1 # 10).

(** The binary64 number just below the literal 0.1. *)
Definition below_threshold : Q := (7205759403792793 # 72057594037927936)%Q.

(** [df['DVI'] < 0.1]. *)
Definition is_desert (ir : IndexedRow) : bool :=
  negb (Qle_bool desert_threshold (DVI ir)).

Definition row_district (ir : IndexedRow) : string := k_district (key (base ir)).

(** The bucket of [groupby('district')['DVI'].mean()]: running sum, count. *)
Definition mean_step (acc : Q * nat) (ir : IndexedRow) : Q * nat :=
  ((acc.1 + DVI ir)%Q, S acc.2).

Definition mean_of_bucket (acc : Q * nat) : Q :=
  (acc.1 / inject_Z (Z.of_nat acc.2))%Q.


(** The arithmetic mean of a list of values. *)
Definition mean (qs : list Q) : Q :=
  (foldr Qplus 0 qs / inject_Z (Z.of_nat (length qs)))%Q.


(** The order [sort_values] must produce. *)
Definition by_value (a b : string * Q) : Prop := (a.2 <= b.2)%Q.

#[global] Instance by_value_dec : RelDecision by_value.
Proof.
  intros a b. unfold by_value.
  destruct (Qle_bool a.2 b.2) eqn:E; [left|right].
  - by apply Qle_bool_iff.
  - intros H. apply Qle_bool_iff in H. congruence.
Defined.





(** ** The script, steps 2 to 5 *)

(** [None] is an exception of the script: AttributeError in step 2,
    MergeError in step 4 or KeyError in step 5. *)
Definition pipeline (P : DateParser)
    (df_enrol df_demo df_bio : Frame (Row string)) : option (list IndexedRow) :=
  e ← normalize P df_enrol;
  d ← normalize P df_demo;
  b ← normalize P df_bio;
  df ← master (groupby_sum e) (groupby_sum d) (groupby_sum b);
  index_engine df.

(** ** Scenario data *)

Definition enrol_columns : list string := ["age_0_5"; "age_5_17"]%string.
Definition demo_columns : list string := ["demo_age_5_17"; "demo_age_17_"]%string.
Definition bio_columns : list string := ["bio_age_5_17"; "bio_age_17_"]%string.

(** A date reader for the scenarios: it knows the format year-month and
    the two months the scenarios use, as days since 1 January 1970. *)
Definition scenario_date (s : string) : option Z :=
  if String.eqb s "2024-01" then Some 19723
  else if String.eqb s "2024-02" then Some 19754
  else None.

Definition scenario_parse : DateParser :=
  mkParser (λ s, if scenario_date s is Some _ then Some "%Y-%m"%string else None)
           (λ fmt s, if String.eqb fmt "%Y-%m" then scenario_date s else None)
           scenario_date.

Definition enrol_row {D} (d : option D) (di : string) (a05 a517 : N) : Row D :=
  mkRow d (Some "KA"%string) (Some di) (Some 560001)
    {[ "age_0_5"%string := a05; "age_5_17"%string := a517 ]}.

Definition demo_row {D} (d : option D) (di : string) (d517 d17 : N) : Row D :=
  mkRow d (Some "KA"%string) (Some di) (Some 560001)
    {[ "demo_age_5_17"%string := d517; "demo_age_17_"%string := d17 ]}.

Definition bio_row {D} (d : option D) (di : string) (b517 b17 : N) : Row D :=
  mkRow d (Some "KA"%string) (Some di) (Some 560001)
    {[ "bio_age_5_17"%string := b517; "bio_age_17_"%string := b17 ]}.

Definition bengaluru_key : Key := mkKey 19723 "KA" "Bengaluru" 560001.

(** An indexed row of district [di] with 15 enrolments and no updates. *)
Definition no_update_row (di : string) : IndexedRow :=
  mkIndexed
    (mkAgg (mkKey 19723 "KA" di 560001)
       {[ "age_0_5"%string := 10%N; "age_5_17"%string := 5%N;
          "demo_age_5_17"%string := 0%N; "demo_age_17_"%string := 0%N;
          "bio_age_5_17"%string := 0%N; "bio_age_17_"%string := 0%N ]})
    15 0 (dvi 15 0).

(** The merged row of scenario B. *)
Definition scenario_B_row : AggRow :=
  mkAgg bengaluru_key
    {[ "age_0_5"%string := 10%N; "age_5_17"%string := 5%N;
       "demo_age_5_17"%string := 0%N; "demo_age_17_"%string := 90%N;
       "bio_age_5_17"%string := 5%N; "bio_age_17_"%string := 0%N ]}.

(** An indexed row of district [di] with 15 enrolments and 95 updates. *)
Definition busy_row (di : string) : IndexedRow :=
  mkIndexed
    (mkAgg (mkKey 19723 "KA" di 560001)
       {[ "age_0_5"%string := 10%N; "age_5_17"%string := 5%N;
          "demo_age_5_17"%string := 0%N; "demo_age_17_"%string := 90%N;
          "bio_age_5_17"%string := 5%N; "bio_age_17_"%string := 0%N ]})
    15 95 (dvi 15 95).

(** ** Step 1: the files of a silo *)


(** ** Steps 7 and 8: the two case studies *)

(** Case folding on the code points below 256: A-Z and the accented
    capitals have a lower-case partner there. *)
Definition lower (c : Ascii.ascii) : Ascii.ascii :=
  let n := Ascii.N_of_ascii c in
  if ((65 <=? n) && (n <=? 90)
      || (192 <=? n) && (n <=? 222) && negb (n =? 215))%N
  then Ascii.ascii_of_N (n + 32) else c.

Fixpoint lower_string (s : string) : string :=
  match s with
  | EmptyString => EmptyString
  | String c s' => String (lower c) (lower_string s')
  end.

Fixpoint prefix_ci (pat s : string) : bool :=
  match pat, s with
  | EmptyString, _ => true
  | String _ _, EmptyString => false
  | String a pat', String b s' =>
      Ascii.eqb (lower a) (lower b) && prefix_ci pat' s'
  end.

(** [str.contains(pat, case=False)] for a pattern without regular
    expression operators, as the two patterns of the script are: [pat]
    occurs in [s] at some position, letter case aside. *)
Fixpoint contains_ci (pat s : string) : bool :=
  prefix_ci pat s
  || match s with
     | EmptyString => false
     | String _ s' => contains_ci pat s'
     end.

Definition row_date (ir : IndexedRow) : Z := k_date (key (base ir)).
Definition row_pincode (ir : IndexedRow) : Z := k_pincode (key (base ir)).

(** [df[df['district'].str.contains(pat, case=False, na=False)]]. *)
Definition district_contains (pat : string) (irs : list IndexedRow)
    : list IndexedRow :=
  filter (λ ir, contains_ci pat (row_district ir) = true) irs.

(** [sub.groupby(sub['date'].dt.to_period('M'))[cols].sum()]. The calendar
    is pandas code: [to_period_M] gives the month a date falls in, months
    numbered along the time line. The labels in [cols] are columns of every
    frame that has passed step 5. *)
Definition monthly_sums (to_period_M : Z → Z) (cols : list string)
    (sub : list IndexedRow) : list (Z * gmap string N) :=
  group_rows Z.compare (λ ir, Some (to_period_M (row_date ir)))
    (zero_cells cols) (λ acc ir, add_cells cols acc (to_row (base ir))) sub.

Definition sitamarhi_monthly (to_period_M : Z → Z) (irs : list IndexedRow)
    : list (Z * gmap string N) :=
  monthly_sums to_period_M ["age_0_5"; "bio_age_5_17"]%string
    (district_contains "Sitamarhi" irs).

Definition bengaluru_monthly (to_period_M : Z → Z) (irs : list IndexedRow)
    : list (Z * gmap string N) :=
  monthly_sums to_period_M ["demo_age_17_"]%string
    (district_contains "Bengaluru" irs).

(** ** Step 9: the heatmap table *)

(** [df.groupby('pincode')['DVI'].mean().reset_index()]. *)
Definition heatmap_data (irs : list IndexedRow) : list (Z * Q) :=
  (λ b, (b.1, mean_of_bucket b.2)) <$>
    group_rows Z.compare (λ ir, Some (row_pincode ir))
      (0%Q, 0%nat) mean_step irs.

(** A calendar for the scenarios, whose dates count days from 1 January
    1970: the months from January 1970 to the month of day [z]. *)
Definition scenario_month (z : Z) : Z :=
  let z := z + 719468 in
  let era := z / 146097 in
  let doe := z - era * 146097 in
  let yoe := (doe - doe / 1460 + doe / 36524 - doe / 146096) / 365 in
  let doy := doe - (365 * yoe + yoe / 4 - yoe / 100) in
  let mp := (5 * doy + 2) / 153 in
  let m := if mp <? 10 then mp + 3 else mp - 9 in
  let y := yoe + era * 400 + (if m <=? 2 then 1 else 0) in
  (y - 1970) * 12 + (m - 1).

(** * Properties *)

(** * Orders given by a three-way comparison *)

#[global] Instance Z_compare_order : CompareOrder Z.compare.
Proof.
  split.
  - apply Z.compare_refl.
  - intros a b. apply Z.compare_eq.
  - intros a b. apply Z.compare_antisym.
  - intros a b c. rewrite !Z.compare_lt_iff. lia.
Qed.

#[global] Instance ascii_compare_order : CompareOrder Ascii.compare.
Proof.
  split; unfold Ascii.compare.
  - intros a. apply N.compare_refl.
  - intros a b. apply Ascii.compare_eq_iff.
  - intros a b. apply N.compare_antisym.
  - intros a b c. rewrite !N.compare_lt_iff. lia.
Qed.

#[global] Instance pair_compare_order {A B : Type} (ca : A → A → comparison)
    (cb : B → B → comparison) `{!CompareOrder ca, !CompareOrder cb} :
  CompareOrder (pair_compare ca cb).
Proof.
  split; unfold pair_compare, lex.
  - intros [a b]. simpl. by rewrite !cmp_refl.
  - intros [a b] [a' b']. simpl. destruct (ca a a') eqn:E; try done.
    intros Hb. f_equal; by apply cmp_eq.
  - intros [a b] [a' b']. simpl. rewrite (cmp_antisym (cmp:=ca) a a').
    destruct (ca a a'); simpl; try done. apply cmp_antisym.
  - intros [a1 b1] [a2 b2] [a3 b3]. simpl.
    destruct (ca a1 a2) eqn:E12; try done;
      destruct (ca a2 a3) eqn:E23; try done; intros H1 H2.
    + apply cmp_eq in E12, E23. subst. rewrite cmp_refl. eauto using cmp_trans.
    + apply cmp_eq in E12. subst. by rewrite E23.
    + apply cmp_eq in E23. subst. by rewrite E12.
    + by rewrite (cmp_trans _ _ _ E12 E23).
Qed.

Lemma compare_order_inj {A B : Type} (f : A → B) (cb : B → B → comparison)
    (ca : A → A → comparison) `{!CompareOrder cb, !Inj (=) (=) f} :
  (∀ x y, ca x y = cb (f x) (f y)) → CompareOrder ca.
Proof.
  intros Hf. split.
  - intros a. rewrite Hf. apply cmp_refl.
  - intros a b. rewrite Hf. intros H. by apply (inj f), cmp_eq.
  - intros a b. rewrite !Hf. apply cmp_antisym.
  - intros a b c. rewrite !Hf. apply cmp_trans.
Qed.

Lemma string_compare_unfold x y a b :
  String.compare (String x a) (String y b)
  = pair_compare Ascii.compare String.compare (x, a) (y, b).
Proof. unfold pair_compare, lex. simpl. by destruct (Ascii.compare x y). Qed.

#[global] Instance string_compare_order : CompareOrder String.compare.
Proof.
  split.
  - intros a. induction a as [|x a IH]; simpl; [done|].
    by rewrite (cmp_refl (cmp:=Ascii.compare)).
  - apply String.compare_eq_iff.
  - intros a b. apply String.compare_antisym.
  - intros a. induction a as [|x a IH]; intros [|y b] [|z c]; try done.
    rewrite !string_compare_unfold. unfold pair_compare, lex. simpl.
    destruct (Ascii.compare x y) eqn:E12; try done;
      destruct (Ascii.compare y z) eqn:E23; try done; intros H1 H2.
    + apply cmp_eq in E12, E23. subst. rewrite cmp_refl. eauto.
    + apply cmp_eq in E12. subst. by rewrite E23.
    + apply cmp_eq in E23. subst. by rewrite E12.
    + by rewrite (cmp_trans _ _ _ E12 E23).
Qed.

#[global] Instance key_tuple_inj : Inj (=) (=) key_tuple.
Proof. intros [] []. unfold key_tuple. simpl. congruence. Qed.

Lemma key_compare_lex a b :
  key_compare a b =
    pair_compare Z.compare
      (pair_compare String.compare (pair_compare String.compare Z.compare))
      (key_tuple a) (key_tuple b).
Proof.
  unfold key_compare, pair_compare, lex. simpl.
  by repeat match goal with |- context [match ?c with _ => _ end] => destruct c end.
Qed.

#[global] Instance key_compare_order : CompareOrder key_compare.
Proof. eapply (compare_order_inj key_tuple), key_compare_lex; apply _. Qed.

(** * Step 2: cleaning *)

(** Under [errors='coerce'] the call returns a frame whatever the texts
    are: a text the reader of the column does not read becomes NaT. *)
Lemma to_datetime_coerce P df :
  to_datetime P errors_coerce df
  = Some (mkFrame (columns df)
            ((λ r, mkRow (date r ≫= date_reader P (date <$> rows df))
                         (state r) (district r) (pincode r) (cells r))
               <$> rows df)).
Proof.
  unfold to_datetime. set (parse := date_reader P (date <$> rows df)).
  assert (mapM (to_datetime_row parse errors_coerce) (rows df)
          = Some ((λ r, mkRow (date r ≫= parse) (state r) (district r)
                              (pincode r) (cells r)) <$> rows df)) as ->; [|done].
  apply mapM_Some_2, Forall2_fmap_r, Forall_Forall2_diag, Forall_forall.
  intros r _. unfold to_datetime_row, to_datetime_cell.
  destruct r as [[s|] st di p cs]; simpl; [|reflexivity].
  destruct (parse s); reflexivity.
Qed.

(** Under [errors='raise'] the same call stops at the first date text
    that does not parse. *)
Lemma to_datetime_raise P (df : Frame (Row string)) i r s :
  rows df !! i = Some r → date r = Some s →
  date_reader P (date <$> rows df) s = None →
  to_datetime P errors_raise df = None.
Proof.
  intros Hi Hd Hp. unfold to_datetime.
  destruct (mapM (to_datetime_row (date_reader P (date <$> rows df))
                    errors_raise) (rows df)) as [rs|] eqn:E;
    [|done].
  apply mapM_Some_1 in E.
  destruct (Forall2_lookup_l _ _ _ _ _ E Hi) as (r' & _ & Hr').
  unfold to_datetime_row, to_datetime_cell in Hr'.
  by rewrite Hd, Hp in Hr'.
Qed.

(** Step 2 returns a frame exactly when the district column is text. *)
Lemma normalize_rows P df :
  normalize P df
  = if is_text_column (district <$> rows df)
    then Some (mkFrame (columns df)
                 (normalize_row (date_reader P (date <$> rows df)) <$> rows df))
    else None.
Proof.
  unfold normalize. rewrite to_datetime_coerce. cbn [mbind option_bind].
  unfold clean_district. cbn [rows columns].
  rewrite <-!list_fmap_compose.
  assert (district ∘ (λ r : Row string,
            mkRow (date r ≫= date_reader P (date <$> rows df))
                  (state r) (district r) (pincode r) (cells r))
          = district) as -> by done.
  destruct (is_text_column _); [|done]. done.
Qed.


Lemma row_key_no_date (r : Row Z) : date r = None → row_key r = None.
Proof. unfold row_key. by intros ->. Qed.

Lemma lstrip_spec s :
  ∃ l, s = (l +:+ lstrip s)%string
       ∧ all_space l = true ∧ starts_with_space (lstrip s) = false.
Proof.
  induction s as [|c s IH]; simpl.
  - by exists EmptyString.
  - destruct (is_space c) eqn:Ec.
    + destruct IH as (l & Hs & Hl & Hst). exists (String c l).
      split; [by rewrite Hs at 1|]. simpl. by rewrite Ec, Hl.
    + exists EmptyString. simpl. by rewrite Ec.
Qed.

Lemma rstrip_spec s :
  ∃ r, s = (rstrip s +:+ r)%string
       ∧ all_space r = true ∧ ends_with_space (rstrip s) = false.
Proof.
  induction s as [|c s IH]; simpl.
  - by exists EmptyString.
  - destruct IH as (r & Hs & Hr & He).
    destruct (rstrip s) as [|c' t] eqn:Et.
    + simpl in Hs. subst s. destruct (is_space c) eqn:Ec.
      * exists (String c r). simpl. by rewrite Ec, Hr.
      * exists r. simpl. by rewrite Ec.
    + exists r. split; [by rewrite Hs at 1|]. done.
Qed.

Lemma rstrip_keeps_start s :
  starts_with_space s = false → starts_with_space (rstrip s) = false.
Proof.
  destruct s as [|c s]; simpl; [done|]. intros Ec.
  destruct (rstrip s); simpl; [by rewrite Ec|done].
Qed.

Lemma strip_spec s :
  ∃ l r, s = (l +:+ strip s +:+ r)%string
         ∧ all_space l = true ∧ all_space r = true
         ∧ starts_with_space (strip s) = false
         ∧ ends_with_space (strip s) = false.
Proof.
  destruct (lstrip_spec s) as (l & Hs & Hl & Hst).
  destruct (rstrip_spec (lstrip s)) as (r & Hs' & Hr & He).
  exists l, r. unfold strip. split; [by rewrite <-Hs'|].
  split; [done|]. split; [done|]. split; [by apply rstrip_keeps_start|done].
Qed.

Lemma replace_aliases s :
  replace district_aliases s
  = if decide (s = "Bangalore Urban"%string ∨ s = "Bengaluru Urban"%string)
    then "Bengaluru"%string else s.
Proof.
  unfold replace, district_aliases, alias_lookup.
  destruct (String.eqb_spec s "Bangalore Urban") as [->|H1]; [done|].
  destruct (String.eqb_spec s "Bengaluru Urban") as [->|H2]; [done|].
  simpl. rewrite decide_False; [done|]. by intros [?|?].
Qed.

(** * The grouping kernel *)

Section GroupingFacts.
Context {K R A : Type} `{Countable K}.
Context (cmp : K → K → comparison) `{!CompareOrder cmp}.
Context (label : R → option K) (init : A) (step : A → R → A).

Let lt (a b : K) : Prop := cmp a b = Lt.

#[local] Abbreviation bucket_add := (bucket_add cmp init step).
#[local] Abbreviation group_step := (group_step cmp label init step).
#[local] Abbreviation group_rows := (group_rows cmp label init step).

(** The same accumulation, written on a dictionary of buckets. *)
#[local] Definition dict_step (m : gmap K A) (r : R) : gmap K A :=
  match label r with
  | Some k => <[k := step (default init (m !! k)) r]> m
  | None => m
  end.

Lemma lt_irrefl a : ¬ lt a a.
Proof. unfold lt. by rewrite cmp_refl. Qed.

Lemma lt_ne a b : lt a b → a ≠ b.
Proof. intros Hl ->. by apply (lt_irrefl b). Qed.

Lemma gt_lt a b : cmp a b = Gt → lt b a.
Proof. unfold lt. intros Hg. by rewrite (cmp_antisym a b), Hg. Qed.

#[local] Instance lt_trans : Transitive lt.
Proof. intros a b c. apply cmp_trans. Qed.

Lemma sorted_keys_NoDup (ks : list K) : StronglySorted lt ks → NoDup ks.
Proof.
  induction 1 as [|k ks Hs IH Hall]; constructor; [|done].
  intros Hin. rewrite Forall_forall in Hall. by apply (lt_irrefl k), Hall.
Qed.

Lemma bucket_add_keys k r bs k' :
  k' ∈ (bucket_add k r bs).*1 ↔ k' = k ∨ k' ∈ bs.*1.
Proof.
  induction bs as [|[k0 a] bs IH]; simpl.
  - rewrite list_elem_of_singleton, elem_of_nil. tauto.
  - destruct (cmp k k0) eqn:E; simpl.
    + apply cmp_eq in E as ->. rewrite !elem_of_cons. tauto.
    + rewrite !elem_of_cons. simpl. tauto.
    + rewrite !elem_of_cons, IH. simpl. tauto.
Qed.

Lemma bucket_add_sorted k r bs :
  StronglySorted lt bs.*1 → StronglySorted lt (bucket_add k r bs).*1.
Proof.
  induction bs as [|[k0 a] bs IH]; simpl; intros Hs.
  - repeat constructor.
  - apply StronglySorted_inv in Hs as [Hs Hall].
    destruct (cmp k k0) eqn:E; simpl.
    + by constructor.
    + constructor; [by constructor|].
      constructor; [done|].
      eapply Forall_impl; [exact Hall|]. intros x Hx. by trans k0.
    + constructor; [by apply IH|].
      apply Forall_forall. intros x Hx.
      apply bucket_add_keys in Hx as [->|Hx]; [by apply gt_lt|].
      rewrite Forall_forall in Hall. by apply Hall.
Qed.

Lemma bucket_add_to_map k r bs :
  StronglySorted lt bs.*1 →
  list_to_map (M:=gmap K A) (bucket_add k r bs)
  = <[k := step (default init (list_to_map (M:=gmap K A) bs !! k)) r]>
      (list_to_map bs).
Proof.
  induction bs as [|[k0 a] bs IH]; simpl; intros Hs.
  - by rewrite lookup_empty.
  - apply StronglySorted_inv in Hs as [Hs Hall].
    destruct (cmp k k0) eqn:E; simpl.
    + apply cmp_eq in E as ->.
      by rewrite lookup_insert_eq, insert_insert_eq.
    + assert (k ≠ k0) as Hne by by apply lt_ne.
      rewrite lookup_insert_ne by done.
      rewrite (not_elem_of_list_to_map_1 bs k); [done|].
      intros Hin. rewrite Forall_forall in Hall.
      apply (lt_irrefl k). trans k0; [done|by apply Hall].
    + assert (k0 ≠ k) as Hne by by apply lt_ne, gt_lt.
      rewrite lookup_insert_ne by done.
      rewrite IH by done. by apply insert_insert_ne.
Qed.

Lemma group_step_sorted bs r :
  StronglySorted lt bs.*1 → StronglySorted lt (group_step bs r).*1.
Proof.
  unfold group_step. destruct (label r); [apply bucket_add_sorted|done].
Qed.

Lemma fold_group_step rs bs :
  StronglySorted lt bs.*1 →
  StronglySorted lt (fold_left group_step rs bs).*1
  ∧ list_to_map (M:=gmap K A) (fold_left group_step rs bs)
    = fold_left dict_step rs (list_to_map bs).
Proof.
  revert bs. induction rs as [|r rs IH]; simpl; intros bs Hs; [done|].
  destruct (IH (group_step bs r)) as [Hs' Hm]; [by apply group_step_sorted|].
  split; [done|]. rewrite Hm. f_equal.
  unfold group_step, dict_step.
  destruct (label r); [by apply bucket_add_to_map|done].
Qed.

Lemma fold_dict_step_lookup rs m k :
  fold_left dict_step rs m !! k
  = match members label k rs with
    | [] => m !! k
    | g => Some (fold_left step g (default init (m !! k)))
    end.
Proof.
  revert m. induction rs as [|r rs IH]; simpl; intros m; [done|].
  rewrite IH. unfold members, dict_step. rewrite filter_cons.
  destruct (label r) as [k'|] eqn:El.
  - destruct (decide (Some k' = Some k)) as [[= ->]|Hne].
    + rewrite lookup_insert_eq. simpl.
      by destruct (filter _ rs).
    + rewrite lookup_insert_ne by congruence. done.
  - rewrite decide_False by done. done.
Qed.

Lemma group_rows_sorted rs : StronglySorted lt (group_rows rs).*1.
Proof. apply fold_group_step. constructor. Qed.

Lemma group_rows_NoDup rs : NoDup (group_rows rs).*1.
Proof. apply sorted_keys_NoDup, group_rows_sorted. Qed.

(** A bucket exists exactly for the labels that occur, and holds the
    accumulation of the rows carrying its label, in frame order. *)
Lemma elem_of_group_rows rs k a :
  (k, a) ∈ group_rows rs
  ↔ members label k rs ≠ [] ∧ a = fold_left step (members label k rs) init.
Proof.
  rewrite (elem_of_list_to_map (M:=gmap K)) by apply group_rows_NoDup.
  unfold group_rows.
  destruct (fold_group_step rs []) as [_ ->]; [constructor|].
  simpl. rewrite fold_dict_step_lookup, lookup_empty. simpl.
  destruct (members label k rs) as [|r g]; split.
  - done.
  - by intros [? _].
  - intros [= <-]. done.
  - by intros [_ ->].
Qed.

Lemma elem_of_members k rs r :
  r ∈ members label k rs ↔ label r = Some k ∧ r ∈ rs.
Proof. apply (list_elem_of_filter (λ r, label r = Some k)). Qed.

Lemma group_rows_keys rs k :
  k ∈ (group_rows rs).*1 ↔ ∃ r, r ∈ rs ∧ label r = Some k.
Proof.
  rewrite list_elem_of_fmap. split.
  - intros [[k' a] [-> Hin]]. apply elem_of_group_rows in Hin as [Hne _].
    simpl. destruct (members label k' rs) as [|r g] eqn:E; [done|].
    exists r. assert (r ∈ members label k' rs) as Hm by (rewrite E; left).
    apply elem_of_members in Hm. tauto.
  - intros (r & Hin & Hl).
    exists (k, fold_left step (members label k rs) init). split; [done|].
    apply elem_of_group_rows. split; [|done].
    intros E. assert (r ∈ members label k rs) as Hm
      by by apply elem_of_members.
    rewrite E in Hm. by apply elem_of_nil in Hm.
Qed.
End GroupingFacts.

Lemma group_rows_skip {K R A} (cmp : K → K → comparison) (label : R → option K)
    (init : A) (step : A → R → A) (l1 l2 : list R) (r : R) :
  label r = None →
  group_rows cmp label init step (l1 ++ r :: l2)
  = group_rows cmp label init step (l1 ++ l2).
Proof.
  intros Hl. unfold group_rows. rewrite !fold_left_app. simpl.
  unfold group_step at 2. by rewrite Hl.
Qed.

(** * Step 3: groupby(...).sum() *)

#[global] Instance Key_countable : Countable Key.
Proof. apply (inj_countable' key_tuple key_of_tuple). by intros []. Defined.

Lemma lookup_tabulate {V} (f : string → V) (cols : list string) (c : string) :
  list_to_map (M:=gmap string V) ((λ c, (c, f c)) <$> cols) !! c
  = if decide (c ∈ cols) then Some (f c) else None.
Proof.
  induction cols as [|c0 cols IH].
  - rewrite fmap_nil, list_to_map_nil, lookup_empty.
    destruct (decide (c ∈ [])) as [Hin|]; [|done].
    by apply elem_of_nil in Hin.
  - rewrite fmap_cons, list_to_map_cons.
    destruct (decide (c0 = c)) as [->|Hne].
    + rewrite lookup_insert_eq.
      destruct (decide (c ∈ c :: cols)) as [|Hnin]; [done|].
      exfalso. apply Hnin. left.
    + rewrite lookup_insert_ne, IH by done.
      destruct (decide (c ∈ cols)) as [Hin|Hnin],
               (decide (c ∈ c0 :: cols)) as [Hin'|Hnin']; try done.
      * exfalso. apply Hnin'. by right.
      * apply elem_of_cons in Hin' as [?|?]; congruence.
Qed.

Lemma zero_cells_lookup cols c :
  zero_cells cols !! c = if decide (c ∈ cols) then Some 0%N else None.
Proof. apply (lookup_tabulate (λ _, 0%N)). Qed.

Lemma add_cells_lookup cols acc r c :
  add_cells cols acc r !! c
  = if decide (c ∈ cols)
    then Some (default 0 (acc !! c) + default 0 (cells r !! c))%N
    else None.
Proof.
  apply (lookup_tabulate
           (λ c, (default 0 (acc !! c) + default 0 (cells r !! c))%N)).
Qed.

Lemma fold_add_cells cols g acc c :
  fold_left (add_cells cols) g acc !! c
  = match g with
    | [] => acc !! c
    | _ => if decide (c ∈ cols)
           then Some (default 0 (acc !! c) + col_sum c g)%N
           else None
    end.
Proof.
  revert acc. induction g as [|r g IH]; intros acc; [done|].
  simpl fold_left. rewrite IH, add_cells_lookup.
  destruct g as [|r' g].
  - unfold col_sum. simpl. by rewrite N.add_0_r.
  - destruct (decide (c ∈ cols)); [|done].
    f_equal. unfold col_sum. simpl. lia.
Qed.

(** What a bucket of [groupby_sum] holds once all rows are in. *)
Lemma bucket_sum_lookup cols g c :
  g ≠ [] → c ∈ cols →
  fold_left (add_cells cols) g (zero_cells cols) !! c = Some (col_sum c g).
Proof.
  intros Hg Hc. rewrite fold_add_cells. destruct g; [done|].
  rewrite decide_True by done. rewrite zero_cells_lookup.
  by rewrite decide_True by done.
Qed.

Lemma bucket_sum_dom cols g c :
  g ≠ [] → c ∉ cols →
  fold_left (add_cells cols) g (zero_cells cols) !! c = None.
Proof.
  intros Hg Hc. rewrite fold_add_cells. destruct g; [done|].
  by rewrite decide_False by done.
Qed.

Lemma groupby_sum_keys df :
  key <$> rows (groupby_sum df)
  = (group_rows key_compare row_key (zero_cells (columns df))
       (add_cells (columns df)) (rows df)).*1.
Proof. unfold groupby_sum. simpl. rewrite <-list_fmap_compose. done. Qed.

Lemma elem_of_groupby_sum df o :
  o ∈ rows (groupby_sum df)
  ↔ members row_key (key o) (rows df) ≠ []
    ∧ vals o = fold_left (add_cells (columns df))
                 (members row_key (key o) (rows df)) (zero_cells (columns df)).
Proof.
  unfold groupby_sum. simpl. rewrite list_elem_of_fmap. split.
  - intros [[k a] [-> Hin]]. simpl.
    by apply (elem_of_group_rows key_compare) in Hin.
  - intros [Hne Hv]. exists (key o, vals o). split; [by destruct o|].
    by apply (elem_of_group_rows key_compare).
Qed.

Lemma groupby_sum_sorted df :
  StronglySorted key_lt (key <$> rows (groupby_sum df)).
Proof. rewrite groupby_sum_keys. apply (group_rows_sorted key_compare). Qed.

Lemma groupby_sum_NoDup df : NoDup (key <$> rows (groupby_sum df)).
Proof. rewrite groupby_sum_keys. apply (group_rows_NoDup key_compare). Qed.

Lemma groupby_sum_has_key df k :
  k ∈ key <$> rows (groupby_sum df) ↔ ∃ r, r ∈ rows df ∧ row_key r = Some k.
Proof. rewrite groupby_sum_keys. apply (group_rows_keys key_compare). Qed.

Lemma groupby_sum_cell df o c :
  o ∈ rows (groupby_sum df) → c ∈ columns df →
  vals o !! c = Some (col_sum c (members row_key (key o) (rows df))).
Proof.
  intros [Hne ->]%elem_of_groupby_sum Hc. by apply bucket_sum_lookup.
Qed.

Lemma groupby_sum_no_cell df o c :
  o ∈ rows (groupby_sum df) → c ∉ columns df → vals o !! c = None.
Proof.
  intros [Hne ->]%elem_of_groupby_sum Hc. by apply bucket_sum_dom.
Qed.

Lemma members_nil_iff {K R} `{EqDecision K} (label : R → option K) k rs :
  members label k rs = [] ↔ ∀ r, r ∈ rs → label r ≠ Some k.
Proof.
  split.
  - intros E r Hin Hl.
    assert (r ∈ members label k rs) as Hm
      by by apply (list_elem_of_filter (λ r, label r = Some k)).
    rewrite E in Hm. by apply elem_of_nil in Hm.
  - intros Hall. destruct (members label k rs) as [|r g] eqn:E; [done|].
    assert (r ∈ members label k rs) as Hm by (rewrite E; left).
    apply (list_elem_of_filter (λ r, label r = Some k)) in Hm as [Hl Hin].
    by destruct (Hall r Hin).
Qed.

Lemma members_nil_iff_not {K R} `{EqDecision K} (label : R → option K) k rs :
  members label k rs ≠ [] → ∃ r, r ∈ rs ∧ label r = Some k.
Proof.
  destruct (members label k rs) as [|r g] eqn:E; [done|]. intros _.
  assert (r ∈ members label k rs) as Hm by (rewrite E; left).
  apply (list_elem_of_filter (λ r, label r = Some k)) in Hm as [Hl Hin].
  by exists r.
Qed.

(** With distinct labels a group has one member. *)
Lemma members_unique {K R} `{EqDecision K} (label : R → option K) k rs r :
  NoDup (label <$> rs) → r ∈ rs → label r = Some k →
  members label k rs = [r].
Proof.
  induction rs as [|x rs IH]; intros Hnd Hin Hl.
  - by apply elem_of_nil in Hin.
  - rewrite fmap_cons in Hnd. apply NoDup_cons in Hnd as [Hx Hnd].
    unfold members. rewrite filter_cons.
    apply elem_of_cons in Hin as [->|Hin].
    + rewrite decide_True by done. f_equal.
      apply members_nil_iff. intros r' Hr' Hl'. apply Hx.
      rewrite Hl, <-Hl'. by apply list_elem_of_fmap_2.
    + rewrite decide_False; [by apply IH|].
      intros Hlx. apply Hx. rewrite Hlx, <-Hl. by apply list_elem_of_fmap_2.
Qed.

Lemma add_cells_first cols r :
  complete cols r → add_cells cols (zero_cells cols) r = cells r.
Proof.
  intros Hc. apply map_eq. intros c.
  rewrite add_cells_lookup, zero_cells_lookup.
  destruct (decide (c ∈ cols)) as [Hin|Hnin].
  - apply Hc in Hin as [v ->]. simpl. by rewrite N.add_0_l.
  - symmetry. apply eq_None_not_Some. by rewrite (Hc c).
Qed.

Lemma to_row_of_key r k : row_key r = Some k → to_row (mkAgg k (cells r)) = r.
Proof.
  destruct r as [[d|] [s|] [di|] [p|] cs]; simpl; try done.
  by intros [= <-].
Qed.

Lemma row_key_to_row o : row_key (to_row o) = Some (key o).
Proof. by destruct o as [[] ?]. Qed.

#[global] Instance to_row_inj : Inj (=) (=) to_row.
Proof.
  intros [[d s di p] v] [[d' s' di' p'] v']. unfold to_row. simpl.
  by intros [= -> -> -> -> ->].
Qed.

Lemma key_lt_irrefl k : ¬ key_lt k k.
Proof. unfold key_lt. by rewrite cmp_refl. Qed.

#[global] Instance key_lt_trans : Transitive key_lt.
Proof. intros a b c. apply cmp_trans. Qed.

#[global] Instance row_lt_antisym : AntiSymm (=) row_lt.
Proof.
  intros a b (ka & kb & Ha & Hb & Hlt) (kb' & ka' & Hb' & Ha' & Hlt').
  simplify_eq. destruct (key_lt_irrefl ka). by trans kb.
Qed.

Lemma groupby_sum_rows_sorted df :
  StronglySorted row_lt (rows (to_frame (groupby_sum df))).
Proof.
  change (StronglySorted row_lt (to_row <$> rows (groupby_sum df))).
  pose proof (groupby_sum_sorted df) as Hs. revert Hs.
  generalize (rows (groupby_sum df)). intros os.
  induction os as [|o os IH]; intros Hs; [constructor|].
  csimpl in *. apply StronglySorted_inv in Hs as [Hs Hall].
  constructor; [by apply IH|].
  rewrite Forall_fmap in Hall. rewrite Forall_fmap.
  eapply Forall_impl; [exact Hall|]. intros o' Hlt. simpl in *.
  exists (key o), (key o'). by rewrite !row_key_to_row.
Qed.

(** On a frame with distinct, non-empty labels and complete rows, the
    aggregate holds the very rows of the frame. *)
Lemma groupby_sum_same_rows df :
  NoDup (row_key <$> rows df) →
  (∀ r, r ∈ rows df → is_Some (row_key r)) →
  (∀ r, r ∈ rows df → complete (columns df) r) →
  ∀ x, x ∈ rows (to_frame (groupby_sum df)) ↔ x ∈ rows df.
Proof.
  intros Hnd Hkey Hcomp x.
  change (x ∈ to_row <$> rows (groupby_sum df) ↔ x ∈ rows df).
  rewrite list_elem_of_fmap. split.
  - intros [o [-> Ho]]. apply elem_of_groupby_sum in Ho as [Hne Hv].
    apply members_nil_iff_not in Hne as (r & Hin & Hl).
    rewrite (members_unique _ _ _ r) in Hv by done. simpl in Hv.
    rewrite add_cells_first in Hv by auto.
    destruct o as [k v]. simpl in *. subst v.
    by rewrite to_row_of_key.
  - intros Hin. destruct (Hkey x Hin) as [k Hk].
    exists (mkAgg k (cells x)). split; [by rewrite to_row_of_key|].
    apply elem_of_groupby_sum. simpl.
    rewrite (members_unique _ _ _ x) by done. split; [done|].
    simpl. by rewrite add_cells_first by auto.
Qed.

Lemma groupby_sum_rows_perm df :
  NoDup (row_key <$> rows df) →
  (∀ r, r ∈ rows df → is_Some (row_key r)) →
  (∀ r, r ∈ rows df → complete (columns df) r) →
  rows (to_frame (groupby_sum df)) ≡ₚ rows df.
Proof.
  intros Hnd Hkey Hcomp. apply NoDup_Permutation.
  - change (NoDup (to_row <$> rows (groupby_sum df))).
    apply (NoDup_fmap_2 _), (NoDup_fmap_1 key), groupby_sum_NoDup.
  - by apply (NoDup_fmap_1 row_key).
  - by apply groupby_sum_same_rows.
Qed.

(** A frame in aggregated form is a fixed point of the aggregation. *)
Lemma groupby_sum_fixed df :
  NoDup (row_key <$> rows df) →
  (∀ r, r ∈ rows df → is_Some (row_key r)) →
  (∀ r, r ∈ rows df → complete (columns df) r) →
  StronglySorted row_lt (rows df) →
  to_frame (groupby_sum df) = df.
Proof.
  intros Hnd Hkey Hcomp Hs.
  pose proof (groupby_sum_rows_perm df Hnd Hkey Hcomp) as Hperm.
  pose proof (groupby_sum_rows_sorted df) as Hsorted.
  destruct df as [cols rs]. unfold to_frame in *. simpl in *. f_equal.
  by apply (StronglySorted_unique row_lt).
Qed.

Lemma groupby_sum_rows_complete df o :
  o ∈ rows (groupby_sum df) → complete (columns df) (to_row o).
Proof.
  intros Ho c. simpl. destruct (decide (c ∈ columns df)) as [Hc|Hc].
  - rewrite (groupby_sum_cell df o c Ho Hc). split; [done|by eexists].
  - rewrite (groupby_sum_no_cell df o c Ho Hc). split; [by intros [??]|done].
Qed.

(** Aggregating an aggregate changes nothing. *)
Lemma groupby_sum_idempotent (df : Frame (Row Z)) :
  groupby_sum (to_frame (groupby_sum df)) = groupby_sum df.
Proof.
  set (agg := groupby_sum df).
  assert (to_frame (groupby_sum (to_frame agg)) = to_frame agg) as Heq.
  { apply groupby_sum_fixed.
    - change (NoDup (row_key <$> (to_row <$> rows agg))).
      rewrite <-list_fmap_compose.
      rewrite (list_fmap_ext (row_key ∘ to_row) (Some ∘ key) (rows agg))
        by (intros; apply row_key_to_row).
      rewrite list_fmap_compose. apply (NoDup_fmap_2 _), groupby_sum_NoDup.
    - intros r Hr. change (r ∈ to_row <$> rows agg) in Hr.
      apply list_elem_of_fmap in Hr as (o & -> & Ho).
      rewrite row_key_to_row. by eexists.
    - intros r Hr. change (r ∈ to_row <$> rows agg) in Hr.
      apply list_elem_of_fmap in Hr as (o & -> & Ho).
      exact (groupby_sum_rows_complete df o Ho).
    - apply groupby_sum_rows_sorted. }
  destruct (groupby_sum (to_frame agg)) as [cols rs] eqn:E.
  destruct agg as [cols' rs']. unfold to_frame in Heq. simpl in Heq.
  injection Heq as -> Hrs. f_equal. by apply (inj (fmap to_row)).
Qed.

(** * Step 4: the joins and the zero fill *)

Lemma filter_key_unique (R : list AggRow) (k : Key) :
  NoDup (key <$> R) →
  (filter (λ r, key r = k) R = [] ∧ k ∉ key <$> R)
  ∨ (∃ r, r ∈ R ∧ key r = k ∧ filter (λ r, key r = k) R = [r]).
Proof.
  induction R as [|x R IH]; intros Hnd.
  - left. split; [done|]. apply not_elem_of_nil.
  - rewrite fmap_cons in Hnd. apply NoDup_cons in Hnd as [Hx Hnd].
    rewrite filter_cons. destruct (decide (key x = k)) as [Hk|Hk].
    + right. exists x. split; [left|]. split; [done|]. f_equal.
      destruct (IH Hnd) as [[Hnil _]|(r & Hr & Hkr & _)]; [done|].
      destruct Hx. rewrite Hk, <-Hkr. by apply list_elem_of_fmap_2.
    + destruct (IH Hnd) as [[Hnil Hnin]|(r & Hr & Hkr & Hf)].
      * left. split; [done|]. rewrite fmap_cons, not_elem_of_cons. done.
      * right. exists r. split; [by right|]. done.
Qed.

(** Against a key-unique right frame a left row yields exactly one row. *)
Lemma merge_row_unique (R : list AggRow) (l : AggRow) :
  NoDup (key <$> R) →
  (merge_row R l = [l] ∧ key l ∉ key <$> R)
  ∨ (∃ r, r ∈ R ∧ key r = key l ∧ merge_row R l = [join_row l r]).
Proof.
  intros Hnd. unfold merge_row.
  destruct (filter_key_unique R (key l) Hnd) as [[-> Hnin]|(r & Hr & Hk & ->)].
  - by left.
  - right. by exists r.
Qed.

Lemma merge_left_keys (L R : Frame AggRow) :
  NoDup (key <$> rows R) →
  key <$> rows (merge_left L R) = key <$> rows L.
Proof.
  intros Hnd. unfold merge_left. simpl.
  induction (rows L) as [|l ls IH]; [done|].
  rewrite bind_cons, fmap_app, IH, fmap_cons. f_equal.
  by destruct (merge_row_unique (rows R) l Hnd) as [[-> _]|(r & _ & _ & ->)].
Qed.

Lemma fillna0_keys (df : Frame AggRow) :
  key <$> rows (fillna0 df) = key <$> rows df.
Proof. unfold fillna0. simpl. by rewrite <-list_fmap_compose. Qed.

Lemma merged_keys (E D B : Frame AggRow) :
  NoDup (key <$> rows D) → NoDup (key <$> rows B) →
  key <$> rows (merged E D B) = key <$> rows E.
Proof.
  intros HD HB. unfold merged.
  by rewrite fillna0_keys, !merge_left_keys.
Qed.

Lemma fillna_row_lookup cols r c :
  vals (fillna_row cols r) !! c
  = match vals r !! c with
    | Some v => Some v
    | None => if decide (c ∈ cols) then Some 0%N else None
    end.
Proof.
  unfold fillna_row. simpl. rewrite lookup_union, zero_cells_lookup.
  destruct (vals r !! c); simpl; [|by destruct (decide _)].
  by destruct (decide _).
Qed.

(** Where an output row of a left join comes from. *)
Lemma elem_of_merge_left (L R : Frame AggRow) (o : AggRow) :
  o ∈ rows (merge_left L R) →
  ∃ l, l ∈ rows L ∧ key o = key l
    ∧ ((vals o = vals l ∧ key l ∉ key <$> rows R)
       ∨ ∃ r, r ∈ rows R ∧ key r = key l ∧ vals o = vals l ∪ vals r).
Proof.
  unfold merge_left. simpl. intros (l & Ho & Hl)%list_elem_of_bind.
  exists l. split; [done|]. unfold merge_row in Ho.
  destruct (filter (λ r, key r = key l) (rows R)) as [|m ms] eqn:Ef.
  - apply list_elem_of_singleton in Ho as ->. split; [done|]. left.
    split; [done|]. intros (r & Hk & Hr)%list_elem_of_fmap.
    assert (r ∈ filter (λ r, key r = key l) (rows R)) as Hin
      by by apply list_elem_of_filter.
    rewrite Ef in Hin. by apply elem_of_nil in Hin.
  - apply list_elem_of_fmap in Ho as (r & -> & Hr). split; [done|]. right.
    rewrite <-Ef in Hr. apply list_elem_of_filter in Hr as [Hk Hr].
    by exists r.
Qed.

Lemma lookup_union_None_2 (m1 m2 : gmap string N) c :
  m1 !! c = None → m2 !! c = None → (m1 ∪ m2) !! c = None.
Proof. intros H1 H2. by rewrite lookup_union, H1, H2. Qed.

(** The cells a merged row holds under a label that the enrolment frame
    and one of the update frames do not have. *)
Lemma join_miss_cell (e d b : Frame (Row Z)) (o : AggRow) (c : string) :
  o ∈ rows (merge_left (merge_left (groupby_sum e) (groupby_sum d))
              (groupby_sum b)) →
  c ∉ columns e →
  (key o ∉ key <$> rows (groupby_sum d) → c ∉ columns b → vals o !! c = None)
  ∧ (key o ∉ key <$> rows (groupby_sum b) → c ∉ columns d → vals o !! c = None).
Proof.
  intros (l2 & Hl2 & Hk2 & Hb)%elem_of_merge_left Hce.
  apply elem_of_merge_left in Hl2 as (l & Hl & Hk & Hd).
  assert (vals l !! c = None) as Hlc by by apply (groupby_sum_no_cell e).
  split.
  - intros Hmiss Hcb.
    assert (vals l2 !! c = None) as Hl2c.
    { destruct Hd as [[-> _]|(rd & Hrd & Hkd & _)]; [done|].
      destruct Hmiss. rewrite Hk2, Hk, <-Hkd. by apply list_elem_of_fmap_2. }
    destruct Hb as [[-> _]|(rb & Hrb & _ & ->)]; [done|].
    apply lookup_union_None_2; [done|]. by apply (groupby_sum_no_cell b).
  - intros Hmiss Hcd.
    assert (vals l2 !! c = None) as Hl2c.
    { destruct Hd as [[-> _]|(rd & Hrd & _ & ->)]; [done|].
      apply lookup_union_None_2; [done|]. by apply (groupby_sum_no_cell d). }
    destruct Hb as [[-> _]|(rb & Hrb & Hkb & _)]; [done|].
    destruct Hmiss. rewrite Hk2, <-Hkb. by apply list_elem_of_fmap_2.
Qed.

(** * binary64 *)

Lemma pow2_pos e : (0 < pow2 e)%Q.
Proof. by apply Qpower_0_lt. Qed.

Lemma pow2_add a b : (pow2 (a + b) == pow2 a * pow2 b)%Q.
Proof. by apply Qpower_plus. Qed.

Lemma pow2_le a b : a ≤ b → (pow2 a <= pow2 b)%Q.
Proof. intros H. by apply Qpower_le_compat_l. Qed.

Lemma pow2_Z e : 0 ≤ e → (pow2 e == inject_Z (2 ^ e))%Q.
Proof. intros H. unfold pow2. by rewrite Zpower_Qpower. Qed.

Lemma pow2_sub a b : (pow2 (a - b) * pow2 b == pow2 a)%Q.
Proof. rewrite <-pow2_add. by replace (a - b + b) with a by lia. Qed.

Lemma round_half_even_range n d :
  0 < d →
  n / d ≤ round_half_even n d ≤ n / d + 1
  ∧ (n mod d = 0 → round_half_even n d = n / d).
Proof.
  intros Hd. unfold round_half_even.
  pose proof (Z.mod_pos_bound n d Hd) as Hr.
  destruct (Z.compare_spec (2 * (n mod d)) d) as [H|H|H];
    [destruct (Z.even (n / d))|..]; lia.
Qed.

(** No integer multiple of d is nearer to n than the rounded one. *)
Lemma round_half_even_near n d j :
  0 < d → Z.abs (round_half_even n d * d - n) ≤ Z.abs (j * d - n).
Proof.
  intros Hd. unfold round_half_even.
  pose proof (Z.mod_pos_bound n d Hd) as Hr.
  pose proof (Z.div_mod n d ltac:(lia)) as Hn.
  set (q := n / d) in *. set (r := n mod d) in *.
  assert (j ≤ q ∨ q + 1 ≤ j) as [Hj|Hj] by lia.
  - assert (j * d ≤ q * d) by nia.
    destruct (Z.compare_spec (2 * r) d) as [H'|H'|H'];
      [destruct (Z.even q)|..]; lia.
  - assert ((q + 1) * d ≤ j * d) by nia.
    destruct (Z.compare_spec (2 * r) d) as [H'|H'|H'];
      [destruct (Z.even q)|..]; lia.
Qed.

Lemma round_half_even_le n d B : 0 < d → n ≤ B * d → round_half_even n d ≤ B.
Proof.
  intros Hd Hn. destruct (round_half_even_range n d Hd) as [[_ Hhi] Hex].
  pose proof (Z.mod_pos_bound n d Hd) as Hr.
  pose proof (Z.div_mod n d ltac:(lia)) as Hdm.
  destruct (decide (n mod d = 0)) as [H0|H0].
  - rewrite (Hex H0). nia.
  - assert (n / d < B) by nia. lia.
Qed.

Lemma round_half_even_ge n d B : 0 < d → B * d ≤ n → B ≤ round_half_even n d.
Proof.
  intros Hd Hn. destruct (round_half_even_range n d Hd) as [[Hlo _] _].
  pose proof (Z.mod_pos_bound n d Hd) as Hr.
  pose proof (Z.div_mod n d ltac:(lia)) as Hdm.
  assert (B ≤ n / d) by nia. lia.
Qed.

Lemma rnd_near (y : Q) (j : Z) :
  (Qabs (inject_Z (rnd y) - y) <= Qabs (inject_Z j - y))%Q.
Proof.
  destruct y as [n d]. unfold rnd. cbn [Qnum Qden].
  pose proof (round_half_even_near n (Zpos d) j ltac:(lia)) as H.
  assert (∀ k : Z, (inject_Z k - (n # d) == (k * Zpos d - n) # d)%Q) as E.
  { intros k. unfold Qeq, Qminus, Qplus, Qopp, inject_Z. simpl. lia. }
  rewrite !E. unfold Qabs, Qle. cbn [Qnum Qden].
  apply Z.mul_le_mono_nonneg_r; lia.
Qed.

Lemma rnd_le (y : Q) (B : Z) : (y <= inject_Z B)%Q → rnd y ≤ B.
Proof.
  destruct y as [n d]. unfold rnd, Qle. cbn [Qnum Qden inject_Z].
  intros H. apply round_half_even_le; lia.
Qed.

Lemma rnd_ge (y : Q) (B : Z) : (inject_Z B <= y)%Q → B ≤ rnd y.
Proof.
  destruct y as [n d]. unfold rnd, Qle. cbn [Qnum Qden inject_Z].
  intros H. apply round_half_even_ge; lia.
Qed.

Lemma floor_log2_spec (x : Q) :
  (0 < x)%Q → (pow2 (floor_log2 x) <= x)%Q ∧ (x < pow2 (floor_log2 x + 1))%Q.
Proof.
  intros Hx. unfold floor_log2.
  destruct x as [n d]. cbn [Qnum Qden].
  assert (0 < n) as Hn by (unfold Qlt in Hx; simpl in Hx; lia).
  set (ln := Z.log2 n). set (ld := Z.log2 (Zpos d)).
  pose proof (Z.log2_spec n Hn) as [Hn1 Hn2].
  pose proof (Z.log2_spec (Zpos d) ltac:(lia)) as [Hd1 Hd2].
  pose proof (Z.log2_nonneg n) as Hln. pose proof (Z.log2_nonneg (Zpos d)) as Hld.
  fold ln in Hn1, Hn2, Hln. fold ld in Hd1, Hd2, Hld.
  assert (n # d == inject_Z n / inject_Z (Zpos d))%Q as Hq by apply Qmake_Qdiv.
  assert (0 < inject_Z (Zpos d))%Q as Hdpos by (unfold Qlt; simpl; lia).
  (* 2^(ln - ld - 1) < n/d < 2^(ln - ld + 1) *)
  assert (pow2 (ln - ld - 1) <= n # d)%Q as Hlo.
  { rewrite Hq. apply Qle_shift_div_l; [done|].
    apply Qle_trans with (pow2 (ln - ld - 1) * pow2 (ld + 1))%Q.
    - apply Qmult_le_l; [apply pow2_pos|].
      rewrite pow2_Z by lia. rewrite <-Zle_Qle. lia.
    - rewrite <-pow2_add. replace (ln - ld - 1 + (ld + 1)) with ln by lia.
      rewrite pow2_Z by lia. rewrite <-Zle_Qle. lia. }
  assert (n # d < pow2 (ln - ld + 1))%Q as Hhi.
  { rewrite Hq. apply Qlt_shift_div_r; [done|].
    apply Qlt_le_trans with (pow2 (ln + 1)).
    - rewrite pow2_Z by lia. rewrite <-Zlt_Qlt.
      replace (ln + 1) with (Z.succ ln) by lia. lia.
    - replace (ln + 1) with (ln - ld + 1 + ld) by lia. rewrite pow2_add.
      apply Qmult_le_l; [apply pow2_pos|].
      rewrite pow2_Z by lia. rewrite <-Zle_Qle. lia. }
  destruct (Qle_bool (pow2 (ln - ld)) (n # d)) eqn:E.
  - apply Qle_bool_iff in E. done.
  - split; [done|]. replace (ln - ld - 1 + 1) with (ln - ld) by lia.
    apply Qnot_le_lt. intros H. apply Qle_bool_iff in H. congruence.
Qed.

Lemma is_double_opp f : is_double f → is_double (- f).
Proof.
  intros (m & e & Hm & He & Hf). exists (- m), e.
  split; [lia|]. split; [done|]. rewrite Hf, inject_Z_opp. ring.
Qed.

Lemma is_double_0 : is_double 0.
Proof. exists 0, 0. split; [done|]. split; [done|]. reflexivity. Qed.

(** The rounded value is a binary64 number, and no binary64 number is
    nearer to the exact one. *)
Lemma round64_pos_spec x :
  (0 < x)%Q →
  is_double (round64_pos x)
  ∧ ∀ f, is_double f → (Qabs (round64_pos x - x) <= Qabs (f - x))%Q.
Proof.
  intros Hx. destruct (floor_log2_spec x Hx) as [Hk1 Hk2].
  unfold round64_pos. set (k := floor_log2 x) in *.
  set (ex := Z.max (k - 52) (-1074)).
  set (u := pow2 ex). set (y := (x / u)%Q). set (M := rnd y).
  assert (0 < u)%Q as Hu by apply pow2_pos.
  assert (y * u == x)%Q as Hyu by (unfold y; field; lra).
  assert (∀ j : Z, (Qabs (inject_Z M * u - x) <= Qabs (inject_Z j * u - x))%Q)
    as Hgrid.
  { intros j. pose proof (rnd_near y j) as H. fold M in H.
    assert (∀ a : Z, (inject_Z a * u - x == (inject_Z a - y) * u)%Q) as E
      by (intros a; rewrite <-Hyu; ring).
    rewrite !E, !Qabs_Qmult, (Qabs_pos u) by lra.
    apply Qmult_le_compat_r; [done|lra]. }
  assert (∀ a, (inject_Z (2 ^ a) * u == pow2 (a + ex))%Q ∨ a < 0) as Hpu.
  { intros a. destruct (Z_lt_ge_dec a 0); [by right|left].
    unfold u. rewrite pow2_add. by rewrite (pow2_Z a) by lia. }
  split.
  - assert (0 ≤ M) as HM0.
    { apply rnd_ge. unfold y. apply Qle_shift_div_l; [done|].
      change (inject_Z 0) with 0%Q. lra. }
    assert (M ≤ 2 ^ 53) as HM1.
    { apply rnd_le. unfold y. apply Qle_shift_div_r; [done|].
      destruct (Hpu 53) as [->|?]; [|lia].
      apply Qle_trans with (pow2 (k + 1)); [lra|]. apply pow2_le. lia. }
    destruct (decide (M = 2 ^ 53)) as [HM|HM].
    + exists (2 ^ 52), (ex + 1). split; [done|]. split; [lia|].
      rewrite HM, pow2_add. fold u.
      assert (inject_Z (2 ^ 53) == inject_Z (2 ^ 52) * pow2 1)%Q as ->
        by reflexivity.
      ring.
    + exists M, ex. split; [lia|]. split; [lia|]. reflexivity.
  - intros f (m & e & Hm & He & Hf).
    destruct (Z_le_gt_dec ex e) as [Hle|Hgt].
    + assert (f == inject_Z (m * 2 ^ (e - ex)) * u)%Q as ->.
      { rewrite Hf, inject_Z_mult, <-pow2_Z by lia.
        rewrite <-Qmult_assoc. unfold u. by rewrite pow2_sub. }
      apply Hgrid.
    + assert (ex = k - 52) as Hex by lia.
      assert (inject_Z (2 ^ 52) * u <= x)%Q as Hg.
      { destruct (Hpu 52) as [->|?]; [|lia].
        by replace (52 + ex) with k by lia. }
      assert (f <= inject_Z (2 ^ 52) * u)%Q as Hf'.
      { rewrite Hf. apply Qle_trans with (pow2 53 * pow2 e)%Q.
        - apply Qmult_le_compat_r; [|apply Qlt_le_weak, pow2_pos].
          rewrite pow2_Z by done. rewrite <-Zle_Qle. lia.
        - destruct (Hpu 52) as [->|?]; [|lia]. rewrite <-pow2_add.
          apply pow2_le. lia. }
      eapply Qle_trans; [apply (Hgrid (2 ^ 52))|].
      rewrite !Qabs_neg by lra. lra.
Qed.

Lemma round64_spec x :
  is_double (round64 x)
  ∧ ∀ f, is_double f → (Qabs (round64 x - x) <= Qabs (f - x))%Q.
Proof.
  unfold round64. pose proof (Qred_correct x) as Hr.
  destruct (Qred x) as [n d] eqn:E. cbn [Qnum]. destruct n as [|p|p].
  - split; [apply is_double_0|]. intros f _.
    assert (x == 0)%Q as -> by (rewrite <-Hr; reflexivity).
    assert (0 - 0 == 0)%Q as -> by ring. apply Qabs_nonneg.
  - assert (0 < Zpos p # d)%Q as Hpos by reflexivity.
    destruct (round64_pos_spec _ Hpos) as [Hd Hn]. split; [done|].
    intros f Hf. rewrite <-Hr. by apply Hn.
  - assert (0 < - (Zneg p # d))%Q as Hpos by reflexivity.
    destruct (round64_pos_spec _ Hpos) as [Hd Hn].
    split; [by apply is_double_opp|].
    intros f Hf. specialize (Hn (- f)%Q (is_double_opp f Hf)).
    rewrite <-Hr.
    assert (- round64_pos (- (Z.neg p # d)) - (Z.neg p # d)
            == - (round64_pos (- (Z.neg p # d)) - - (Z.neg p # d)))%Q as ->
      by ring.
    assert (f - (Z.neg p # d) == - (- f - - (Z.neg p # d)))%Q as -> by ring.
    by rewrite !Qabs_opp.
Qed.

Lemma round64_double x : is_double (round64 x).
Proof. apply round64_spec. Qed.

Lemma round64_nearest x f :
  is_double f → (Qabs (round64 x - x) <= Qabs (f - x))%Q.
Proof. apply round64_spec. Qed.

#[global] Instance round64_proper : Proper (Qeq ==> Qeq) round64.
Proof.
  intros x y Hxy. unfold round64. by rewrite (Qred_complete x y Hxy).
Qed.

(** A binary64 number is not changed by rounding. *)
Lemma round64_fixed x : is_double x → (round64 x == x)%Q.
Proof.
  intros Hx. pose proof (round64_nearest x x Hx) as H.
  assert (x - x == 0)%Q as E by ring. rewrite E in H.
  change (Qabs 0) with 0%Q in H.
  pose proof (Qabs_nonneg (round64 x - x)) as H0.
  assert (Qabs (round64 x - x) == 0)%Q as Hz by lra.
  revert Hz. apply Qabs_case; intros; lra.
Qed.

Lemma nearer_above a b x :
  (b < a)%Q → (Qabs (a - x) <= Qabs (b - x))%Q → (a + b <= 2 * x)%Q.
Proof.
  intros Hab. apply Qabs_case; intros Ha; apply Qabs_case; intros Hb; lra.
Qed.

Lemma nearer_below a b y :
  (b < a)%Q → (Qabs (b - y) <= Qabs (a - y))%Q → (2 * y <= a + b)%Q.
Proof.
  intros Hab. apply Qabs_case; intros Hb; apply Qabs_case; intros Ha; lra.
Qed.

(** Rounding keeps the order. *)
Lemma round64_mono x y : (x <= y)%Q → (round64 x <= round64 y)%Q.
Proof.
  intros Hxy. apply Qnot_lt_le. intros Hlt.
  pose proof (nearer_above _ _ _ Hlt
                (round64_nearest x (round64 y) (round64_double y))) as H1.
  pose proof (nearer_below _ _ _ Hlt
                (round64_nearest y (round64 x) (round64_double x))) as H2.
  assert (x == y)%Q as E by lra.
  rewrite E in Hlt. by apply Qlt_irrefl in Hlt.
Qed.

Lemma is_double_Z (z : Z) : Z.abs z ≤ 2 ^ 53 → is_double (inject_Z z).
Proof.
  intros Hz. destruct (decide (Z.abs z = 2 ^ 53)) as [E|E].
  - assert (z = 2 ^ 53 ∨ z = - 2 ^ 53) as [->| ->] by lia.
    + exists (2 ^ 52), 1. by repeat split.
    + exists (- 2 ^ 52), 1. by repeat split.
  - exists z, 0. split; [lia|]. split; [done|].
    change (pow2 0) with 1%Q. ring.
Qed.

(** Counts up to 2^53 are binary64 numbers. *)
Lemma to_float_exact n :
  (n ≤ exact_max)%N → (to_float n == inject_Z (Z.of_N n))%Q.
Proof.
  intros Hn. apply round64_fixed, is_double_Z. unfold exact_max in Hn. lia.
Qed.

(** * The sums of the script *)

Lemma int64_wrap_small z : - 2 ^ 63 ≤ z < 2 ^ 63 → int64_wrap z = z.
Proof.
  intros Hz. unfold int64_wrap. rewrite Z.mod_small; lia.
Qed.

Lemma col_sum_present_cells c rs :
  col_sum c rs = foldr N.add 0%N (present_cells c rs).
Proof.
  unfold col_sum, present_cells. induction rs as [|r rs IH]; [done|].
  csimpl. rewrite IH. by destruct (cells r !! c).
Qed.

(** Up to 2^63 - 1 the int64 sum is the exact one. *)
Lemma int64_sum_exact (vs : list N) :
  Z.of_N (foldr N.add 0%N vs) < 2 ^ 63 →
  int64_sum vs = Z.of_N (foldr N.add 0%N vs).
Proof.
  unfold int64_sum.
  assert (∀ acc, 0 ≤ acc → acc + Z.of_N (foldr N.add 0%N vs) < 2 ^ 63 →
            fold_left (λ acc v, int64_wrap (acc + Z.of_N v)) vs acc
            = acc + Z.of_N (foldr N.add 0%N vs)) as H.
  { induction vs as [|v vs IH]; intros acc H0 Hlt; csimpl in *; [lia|].
    rewrite int64_wrap_small by lia. rewrite IH; lia. }
  intros Hlt. rewrite H; lia.
Qed.

(** Beyond, it wraps around. *)
Lemma int64_sum_wraps :
  int64_sum [4611686018427387904%N; 4611686018427387904%N]
  = -9223372036854775808.
Proof. reflexivity. Qed.

(** Up to 2^53 the float64 sum is the exact one, and the compensation
    stays 0. *)
Lemma float64_sum_exact (vs : list N) :
  (foldr N.add 0%N vs ≤ exact_max)%N →
  (float64_sum vs == inject_Z (Z.of_N (foldr N.add 0%N vs)))%Q.
Proof.
  unfold float64_sum.
  assert (∀ (st : Q * Q) (a : N),
            (st.1 == inject_Z (Z.of_N a))%Q → (st.2 == 0)%Q →
            (a + foldr N.add 0%N vs ≤ exact_max)%N →
            ((fold_left kahan_step vs st).1
             == inject_Z (Z.of_N (a + foldr N.add 0%N vs)))%Q) as H.
  { induction vs as [|v vs IH]; intros st a H1 H2 Hle; csimpl in *.
    - by rewrite N.add_0_r.
    - replace (a + (v + foldr N.add 0%N vs))%N
        with ((a + v) + foldr N.add 0%N vs)%N in * by lia.
      apply IH; [| |done]; unfold kahan_step; cbn [fst snd].
      + rewrite H1, H2, (to_float_exact v) by lia.
        assert (inject_Z (Z.of_N v) - 0 == inject_Z (Z.of_N v))%Q as ->
          by ring.
        rewrite (round64_fixed (inject_Z (Z.of_N v)))
          by (apply is_double_Z; unfold exact_max in Hle; lia).
        rewrite <-inject_Z_plus, <-N2Z.inj_add.
        apply round64_fixed, is_double_Z. unfold exact_max in Hle. lia.
      + rewrite H1, H2, (to_float_exact v) by lia.
        assert (inject_Z (Z.of_N v) - 0 == inject_Z (Z.of_N v))%Q as ->
          by ring.
        rewrite (round64_fixed (inject_Z (Z.of_N v)))
          by (apply is_double_Z; unfold exact_max in Hle; lia).
        rewrite <-inject_Z_plus, <-N2Z.inj_add.
        rewrite (round64_fixed (inject_Z (Z.of_N (a + v))))
          by (apply is_double_Z; unfold exact_max in Hle; lia).
        assert (inject_Z (Z.of_N (a + v)) - inject_Z (Z.of_N a)
                == inject_Z (Z.of_N v))%Q as ->
          by (rewrite N2Z.inj_add, inject_Z_plus; ring).
        rewrite (round64_fixed (inject_Z (Z.of_N v)))
          by (apply is_double_Z; unfold exact_max in Hle; lia).
        assert (inject_Z (Z.of_N v) - inject_Z (Z.of_N v) == 0)%Q as ->
          by ring.
        by vm_compute. }
  intros Hle. rewrite (H (0%Q, 0%Q) 0%N); [by rewrite N.add_0_l|done..].
Qed.

Lemma float64_plus_exact (vs : list N) :
  (foldr N.add 0%N vs ≤ exact_max)%N →
  (float64_plus vs == inject_Z (Z.of_N (foldr N.add 0%N vs)))%Q.
Proof.
  unfold float64_plus.
  assert (∀ (acc : Q) (a : N),
            (acc == inject_Z (Z.of_N a))%Q →
            (a + foldr N.add 0%N vs ≤ exact_max)%N →
            (fold_left (λ acc v, round64 (acc + to_float v)) vs acc
             == inject_Z (Z.of_N (a + foldr N.add 0%N vs)))%Q) as H.
  { induction vs as [|v vs IH]; intros acc a H1 Hle; csimpl in *.
    - by rewrite N.add_0_r.
    - replace (a + (v + foldr N.add 0%N vs))%N
        with ((a + v) + foldr N.add 0%N vs)%N in * by lia.
      apply IH; [|done].
      rewrite H1, (to_float_exact v) by lia.
      rewrite <-inject_Z_plus, <-N2Z.inj_add.
      apply round64_fixed, is_double_Z. unfold exact_max in Hle. lia. }
  intros Hle. rewrite (H 0%Q 0%N); [by rewrite N.add_0_l|done..].
Qed.

(** Beyond, it rounds: 2^53 + 1 is not a binary64 number. *)
Lemma float64_sum_rounds :
  (float64_sum [9007199254740992%N; 1%N] == inject_Z 9007199254740992)%Q.
Proof. by vm_compute. Qed.

(** * Step 5: the index *)

Lemma to_float_mono a b : (a ≤ b)%N → (to_float a <= to_float b)%Q.
Proof. intros H. apply round64_mono. rewrite <-Zle_Qle. lia. Qed.

Lemma to_float_nonneg n : (0 <= to_float n)%Q.
Proof.
  apply Qle_trans with (to_float 0); [by vm_compute|].
  apply to_float_mono. lia.
Qed.

Lemma dvi_denominator_pos ep tu : (1 <= to_float (dvi_denominator ep tu))%Q.
Proof.
  apply Qle_trans with (to_float 1); [by vm_compute|].
  apply to_float_mono. unfold dvi_denominator. lia.
Qed.

Lemma dvi_nonneg ep tu : (0 <= dvi ep tu)%Q.
Proof.
  unfold dvi. apply Qle_trans with (round64 0); [by vm_compute|].
  apply round64_mono. pose proof (dvi_denominator_pos ep tu).
  apply Qle_shift_div_l; [lra|]. pose proof (to_float_nonneg tu). lra.
Qed.

Lemma dvi_le_1 ep tu : (dvi ep tu <= 1)%Q.
Proof.
  unfold dvi. apply Qle_trans with (round64 1); [|by vm_compute].
  apply round64_mono. pose proof (dvi_denominator_pos ep tu).
  apply Qle_shift_div_r; [lra|]. rewrite Qmult_1_l.
  apply to_float_mono. unfold dvi_denominator. lia.
Qed.

(** With a denominator up to 2^53 the operands are converted exactly, and
    the index is the exact quotient rounded once. *)
Lemma dvi_exact ep tu :
  (dvi_denominator ep tu ≤ exact_max)%N →
  (dvi ep tu == round64 (dvi_quotient ep tu))%Q.
Proof.
  intros Hd. unfold dvi, dvi_quotient.
  rewrite (to_float_exact (dvi_denominator ep tu)) by done.
  rewrite (to_float_exact tu); [done|]. unfold dvi_denominator in Hd. lia.
Qed.

Lemma dvi_quotient_le ep tu (a b : Z) :
  0 < b → Z.of_N tu * b ≤ a * Z.of_N (dvi_denominator ep tu) →
  (dvi_quotient ep tu <= a # Z.to_pos b)%Q.
Proof.
  intros Hb H. unfold dvi_quotient, dvi_denominator in *.
  remember (Z.of_N (ep + tu + 1)) as x eqn:Ex.
  destruct x as [|p|p]; try lia.
  unfold Qle, Qdiv, Qmult, Qinv, inject_Z. simpl.
  rewrite Z2Pos.id by done. lia.
Qed.

Lemma dvi_quotient_ge ep tu (a b : Z) :
  0 < b → a * Z.of_N (dvi_denominator ep tu) ≤ Z.of_N tu * b →
  (a # Z.to_pos b <= dvi_quotient ep tu)%Q.
Proof.
  intros Hb H. unfold dvi_quotient, dvi_denominator in *.
  remember (Z.of_N (ep + tu + 1)) as x eqn:Ex.
  destruct x as [|p|p]; try lia.
  unfold Qle, Qdiv, Qmult, Qinv, inject_Z. simpl.
  rewrite Z2Pos.id by done. lia.
Qed.

Lemma is_double_below_one : is_double below_one.
Proof. exists 9007199254740991, (-53). by repeat split. Qed.

Lemma dvi_lt_1 ep tu : (dvi_denominator ep tu ≤ exact_max)%N → (dvi ep tu < 1)%Q.
Proof.
  intros Hd. rewrite (dvi_exact ep tu Hd).
  apply Qle_lt_trans with below_one; [|done].
  rewrite <-(round64_fixed below_one is_double_below_one).
  apply round64_mono.
  apply (dvi_quotient_le ep tu 9007199254740991 9007199254740992); [done|].
  unfold dvi_denominator, exact_max in *. lia.
Qed.

Lemma is_double_least_index : is_double least_index.
Proof. exists 1, (-53). by repeat split. Qed.

Lemma dvi_zero_iff ep tu :
  (dvi_denominator ep tu ≤ exact_max)%N → (dvi ep tu == 0)%Q ↔ tu = 0%N.
Proof.
  intros Hd. rewrite (dvi_exact ep tu Hd). split.
  - intros Hz. destruct (decide (tu = 0%N)) as [|Hne]; [done|]. exfalso.
    assert (least_index <= round64 (dvi_quotient ep tu))%Q as Hle.
    { rewrite <-(round64_fixed least_index is_double_least_index).
      apply round64_mono.
      apply (dvi_quotient_ge ep tu 1 9007199254740992); [done|].
      unfold dvi_denominator, exact_max in *. lia. }
    rewrite Hz in Hle. by vm_compute in Hle.
  - intros ->. by vm_compute.
Qed.

(** In that range the index grows with the update count and falls with
    the enrolment pressure. *)
Lemma dvi_mono ep ep' tu tu' :
  (ep' ≤ ep)%N → (tu ≤ tu')%N →
  (dvi_denominator ep tu ≤ exact_max)%N →
  (dvi_denominator ep' tu' ≤ exact_max)%N →
  (dvi ep tu <= dvi ep' tu')%Q.
Proof.
  intros Hep Htu Hd Hd'. rewrite (dvi_exact _ _ Hd), (dvi_exact _ _ Hd').
  apply round64_mono. unfold dvi_quotient, dvi_denominator.
  unfold Qle, Qdiv, Qmult, Qinv, inject_Z. simpl.
  remember (Z.of_N (ep + tu + 1)) as x eqn:Ex.
  remember (Z.of_N (ep' + tu' + 1)) as y eqn:Ey.
  destruct x as [|p|p]; try lia. destruct y as [|q|q]; try lia.
  simpl. nia.
Qed.

Lemma is_double_below_threshold : is_double below_threshold.
Proof. exists 7205759403792793, (-56). by repeat split. Qed.

(** In that range the rounded index is below the literal 0.1 exactly when
    the exact quotient is below 1/10. *)
Lemma dvi_lt_threshold ep tu :
  (dvi_denominator ep tu ≤ exact_max)%N →
  (dvi ep tu < desert_threshold)%Q ↔ (9 * tu ≤ ep)%N.
Proof.
  intros Hd. rewrite (dvi_exact ep tu Hd). split.
  - intros Hlt. apply N.le_ngt. intros Hgt.
    apply (Qlt_not_le _ _ Hlt). unfold desert_threshold.
    apply round64_mono.
    apply (dvi_quotient_ge ep tu 1 10); [done|].
    unfold dvi_denominator. lia.
  - intros Hle. apply Qle_lt_trans with below_threshold; [|by vm_compute].
    rewrite <-(round64_fixed below_threshold is_double_below_threshold).
    apply round64_mono.
    apply (dvi_quotient_le ep tu 7205759403792793 72057594037927936); [done|].
    unfold dvi_denominator, exact_max in *. lia.
Qed.

Lemma index_row_Some r ir :
  index_row r = Some ir →
  ∃ a05 a517 d517 d17 b517 b17,
    vals r !! "age_0_5"%string = Some a05
    ∧ vals r !! "age_5_17"%string = Some a517
    ∧ vals r !! "demo_age_5_17"%string = Some d517
    ∧ vals r !! "demo_age_17_"%string = Some d17
    ∧ vals r !! "bio_age_5_17"%string = Some b517
    ∧ vals r !! "bio_age_17_"%string = Some b17
    ∧ ir = mkIndexed r (a05 + a517) (d517 + d17 + b517 + b17)
             (dvi (a05 + a517) (d517 + d17 + b517 + b17)).
Proof.
  unfold index_row. intros H.
  destruct (vals r !! "age_0_5"%string) as [a05|]; [|done].
  destruct (vals r !! "age_5_17"%string) as [a517|]; [|done].
  destruct (vals r !! "demo_age_5_17"%string) as [d517|]; [|done].
  destruct (vals r !! "demo_age_17_"%string) as [d17|]; [|done].
  destruct (vals r !! "bio_age_5_17"%string) as [b517|]; [|done].
  destruct (vals r !! "bio_age_17_"%string) as [b17|]; [|done].
  simpl in H. injection H as <-. by eexists _, _, _, _, _, _.
Qed.

Lemma index_row_cells r a05 a517 d517 d17 b517 b17 :
  vals r !! "age_0_5"%string = Some a05 →
  vals r !! "age_5_17"%string = Some a517 →
  vals r !! "demo_age_5_17"%string = Some d517 →
  vals r !! "demo_age_17_"%string = Some d17 →
  vals r !! "bio_age_5_17"%string = Some b517 →
  vals r !! "bio_age_17_"%string = Some b17 →
  index_row r
  = Some (mkIndexed r (a05 + a517) (d517 + d17 + b517 + b17)
            (dvi (a05 + a517) (d517 + d17 + b517 + b17))).
Proof. unfold index_row. by intros -> -> -> -> -> ->. Qed.

(** * Step 6: identity deserts *)

Lemma is_desert_iff ir : is_desert ir = true ↔ (DVI ir < desert_threshold)%Q.
Proof.
  unfold is_desert. rewrite negb_true_iff. split.
  - intros Hb. apply Qnot_le_lt. intros Hle.
    apply Qle_bool_iff in Hle. congruence.
  - intros Hlt. destruct (Qle_bool desert_threshold (DVI ir)) eqn:E; [|done].
    apply Qle_bool_iff in E. by apply Qlt_not_le in Hlt.
Qed.

#[global] Instance by_value_trans : Transitive by_value.
Proof. intros a b c. unfold by_value. apply Qle_trans. Qed.

#[global] Instance by_value_total : Total by_value.
Proof.
  intros a b. unfold by_value.
  destruct (Qlt_le_dec b.2 a.2); [right|left]; [by apply Qlt_le_weak|done].
Qed.






Lemma fold_mean_step g acc :
  ((fold_left mean_step g acc).1 == acc.1 + foldr Qplus 0 (DVI <$> g))%Q
  ∧ (fold_left mean_step g acc).2 = (acc.2 + length g)%nat.
Proof.
  revert acc. induction g as [|ir g IH]; intros [s n]; simpl.
  - split; [by rewrite Qplus_0_r|lia].
  - destruct (IH (mean_step (s, n) ir)) as [H1 H2]. rewrite H1, H2. simpl.
    split; [by rewrite Qplus_assoc|lia].
Qed.

Lemma mean_of_bucket_fold g :
  (mean_of_bucket (fold_left mean_step g (0%Q, 0%nat)) == mean (DVI <$> g))%Q.
Proof.
  unfold mean_of_bucket, mean.
  destruct (fold_mean_step g (0%Q, 0%nat)) as [H1 H2]. simpl in *.
  rewrite H1, H2, length_fmap, Qplus_0_l. reflexivity.
Qed.





(** * The script end to end *)

Lemma fillna_row_is_Some cols r c :
  c ∈ cols → is_Some (vals (fillna_row cols r) !! c).
Proof.
  intros Hc. rewrite fillna_row_lookup.
  destruct (vals r !! c); [by eexists|]. rewrite decide_True by done.
  by eexists.
Qed.

Lemma index_row_filled cols r :
  (∀ c, c ∈ index_columns → c ∈ cols) →
  is_Some (index_row (fillna_row cols r)).
Proof.
  intros Hcols.
  assert (∀ c, c ∈ index_columns → is_Some (vals (fillna_row cols r) !! c))
    as Hc by (intros c Hin; by apply fillna_row_is_Some, Hcols).
  unfold index_columns in Hc.
  destruct (Hc "age_0_5"%string) as [a05 H1]; [by repeat constructor|].
  destruct (Hc "age_5_17"%string) as [a517 H2]; [by repeat constructor|].
  destruct (Hc "demo_age_5_17"%string) as [d517 H3]; [by repeat constructor|].
  destruct (Hc "demo_age_17_"%string) as [d17 H4]; [by repeat constructor|].
  destruct (Hc "bio_age_5_17"%string) as [b517 H5]; [by repeat constructor|].
  destruct (Hc "bio_age_17_"%string) as [b17 H6]; [by repeat constructor|].
  rewrite (index_row_cells _ _ _ _ _ _ _ H1 H2 H3 H4 H5 H6). by eexists.
Qed.

Lemma rename_cells_id (f : string → string) (m : gmap string N) :
  (∀ c, f c = c) → rename_cells f m = m.
Proof.
  intros Hf. unfold rename_cells.
  rewrite (list_fmap_ext (prod_map f id) id (map_to_list m)).
  - rewrite list_fmap_id. apply list_to_map_to_list.
  - intros i [k v] _. unfold prod_map. simpl. by rewrite Hf.
Qed.

Lemma rename_columns_id (f : string → string) (df : Frame AggRow) :
  (∀ c, f c = c) → rename_columns f df = df.
Proof.
  intros Hf. destruct df as [cols rs]. unfold rename_columns. cbn [columns rows].
  f_equal.
  - rewrite (list_fmap_ext f id cols) by done. apply list_fmap_id.
  - rewrite (list_fmap_ext _ id rs); [apply list_fmap_id|].
    intros i [k v] _. simpl. by rewrite rename_cells_id.
Qed.

(** Frames that share no label are joined as they are. *)
Lemma merge_disjoint (L R : Frame AggRow) :
  NoDup (columns L ++ columns R) → merge L R = Some (merge_left L R).
Proof.
  intros Hnd. unfold merge.
  assert (filter (λ c, c ∈ columns R) (columns L) = []) as ->.
  { apply NoDup_app in Hnd as (_ & Hdis & _).
    induction (columns L) as [|c cs IH]; [done|].
    rewrite filter_cons, decide_False by (apply Hdis; left).
    apply IH. intros x Hx. apply Hdis. by right. }
  assert (∀ sfx c, suffixed [] sfx c = c) as Hid.
  { intros sfx c. unfold suffixed. rewrite bool_decide_eq_false_2; [done|].
    apply not_elem_of_nil. }
  rewrite !rename_columns_id by done. by rewrite bool_decide_eq_true_2.
Qed.

Lemma master_disjoint (E D B : Frame AggRow) :
  NoDup (columns E ++ columns D ++ columns B) →
  master E D B = Some (merged E D B).
Proof.
  intros Hnd. unfold master.
  rewrite merge_disjoint by (rewrite (assoc_L (++)) in Hnd;
                              by apply NoDup_app in Hnd as (? & _ & _)).
  cbn [mbind option_bind].
  rewrite merge_disjoint; [done|]. cbn [columns merge_left].
  by rewrite <-(assoc_L (++)).
Qed.

Lemma index_engine_Some (df : Frame AggRow) (irs : list IndexedRow) :
  index_engine df = Some irs →
  Forall (λ c, c ∈ columns df) index_columns
  ∧ Forall2 (λ r ir, index_row r = Some ir) (rows df) irs.
Proof.
  unfold index_engine. destruct (bool_decide _) eqn:E; [|done].
  apply bool_decide_eq_true in E. intros H. by apply mapM_Some_1 in H.
Qed.

(** The script runs to the end, whatever the date texts are, when the
    district column of each silo is text, no measure label occurs twice
    among the three silos, and the six index labels are among them. *)
Lemma pipeline_completes P (e d b : Frame (Row string)) :
  is_text_column (district <$> rows e) = true →
  is_text_column (district <$> rows d) = true →
  is_text_column (district <$> rows b) = true →
  NoDup (columns e ++ columns d ++ columns b) →
  (∀ c, c ∈ index_columns → c ∈ columns e ++ columns d ++ columns b) →
  is_Some (pipeline P e d b).
Proof.
  intros He Hd Hb Hnd Hcols. unfold pipeline.
  rewrite !normalize_rows, He, Hd, Hb. cbn [mbind option_bind].
  rewrite master_disjoint by done. cbn [mbind option_bind].
  unfold index_engine.
  rewrite bool_decide_eq_true_2.
  - apply mapM_is_Some.
    unfold merged, fillna0. cbn [rows columns merge_left groupby_sum].
    apply Forall_fmap, Forall_forall. intros r _. simpl.
    apply index_row_filled. intros c Hc. rewrite <-(assoc_L (++)). auto.
  - apply Forall_forall. intros c Hc.
    unfold merged, fillna0. cbn [rows columns merge_left groupby_sum].
    rewrite <-(assoc_L (++)). auto.
Qed.

(** The script stops in step 2 when a district column has rows and no
    text. *)
Lemma pipeline_stops_without_district_text P (e d b : Frame (Row string)) :
  is_text_column (district <$> rows e) = false → pipeline P e d b = None.
Proof.
  intros He. unfold pipeline. by rewrite (normalize_rows P e), He.
Qed.

(** The script stops in step 5 when an index label is a column of two
    silos: [merge] has renamed it age_0_5_x and age_0_5_y. *)
Lemma pipeline_stops_on_shared_label :
  let e := mkFrame enrol_columns
             [enrol_row (Some "2024-01"%string) "Bengaluru" 10 5] in
  let d := mkFrame ["age_0_5"; "demo_age_5_17"; "demo_age_17_"]%string
             [mkRow (Some "2024-01"%string) (Some "KA"%string)
                    (Some "Bengaluru"%string) (Some 560001)
                    {[ "age_0_5"%string := 1%N; "demo_age_5_17"%string := 0%N;
                       "demo_age_17_"%string := 90%N ]}] in
  let b := mkFrame bio_columns [] in
  (columns <$> (normalize scenario_parse e ≫= λ e',
                normalize scenario_parse d ≫= λ d',
                normalize scenario_parse b ≫= λ b',
                master (groupby_sum e') (groupby_sum d') (groupby_sum b')))
  = Some ["age_0_5_x"; "age_5_17"; "age_0_5_y"; "demo_age_5_17";
          "demo_age_17_"; "bio_age_5_17"; "bio_age_17_"]%string
  ∧ pipeline scenario_parse e d b = None.
Proof. split; by vm_compute. Qed.

(** * The claims *)

(** C1 (as amended). For every silo frame the aggregate has no two rows
    with the same composite key; it has a row for a key exactly when some
    record carries that key with all four key cells present; and in that row
    every measure column holds the arithmetic sum of the column over the
    records sharing the key, as long as that sum is at most 2^53: up to
    there it is what [sum()] computes, on an int64 and on a float64 column
    alike. Two enrolment records with the same key and age_0_5 = 3 and
    age_0_5 = 7 give one row with age_0_5 = 10. *)
Theorem groupby_sum_one_row_per_present_key :
  (∀ df : Frame (Row Z),
     NoDup (key <$> rows (groupby_sum df))
     ∧ (∀ k, k ∈ key <$> rows (groupby_sum df)
             ↔ ∃ r, r ∈ rows df ∧ row_key r = Some k)
     ∧ (∀ o c, o ∈ rows (groupby_sum df) → c ∈ columns df →
          let g := members row_key (key o) (rows df) in
          (col_sum c g ≤ exact_max)%N →
          vals o !! c = Some (col_sum c g)
          ∧ int64_sum (present_cells c g) = Z.of_N (col_sum c g)
          ∧ (float64_sum (present_cells c g)
             == inject_Z (Z.of_N (col_sum c g)))%Q))
  ∧ rows (groupby_sum
            (mkFrame enrol_columns
               [enrol_row (Some 19723) "Bengaluru" 3 0;
                enrol_row (Some 19723) "Bengaluru" 7 0]))
    = [mkAgg bengaluru_key (cells (enrol_row (Some 19723) "Bengaluru" 10 0))].
Proof.
  split.
  - intros df. split; [apply groupby_sum_NoDup|]. split.
    + apply groupby_sum_has_key.
    + intros o c Ho Hc g Hmax. split; [by apply groupby_sum_cell|].
      rewrite col_sum_present_cells in *. split.
      * apply int64_sum_exact. unfold exact_max in Hmax. lia.
      * by apply float64_sum_exact.
  - by vm_compute.
Qed.

Lemma groupby_sum_one_row_per_present_key_witness :
  let df := mkFrame enrol_columns
              [enrol_row (Some 19723) "Bengaluru" 3 1;
               enrol_row None "Bengaluru" 9 9;
               enrol_row (Some 19723) "Bengaluru" 7 2] in
  NoDup (key <$> rows (groupby_sum df))
  ∧ (∀ k, k ∈ key <$> rows (groupby_sum df)
          ↔ ∃ r, r ∈ rows df ∧ row_key r = Some k)
  ∧ (∀ o c, o ∈ rows (groupby_sum df) → c ∈ columns df →
       let g := members row_key (key o) (rows df) in
       (col_sum c g ≤ exact_max)%N →
       vals o !! c = Some (col_sum c g)
       ∧ int64_sum (present_cells c g) = Z.of_N (col_sum c g)
       ∧ (float64_sum (present_cells c g)
          == inject_Z (Z.of_N (col_sum c g)))%Q).
Proof.
  intros df. exact (proj1 groupby_sum_one_row_per_present_key df).
Defined.

(** C1, as stated, fails: a frame whose single record has no date (NaT)
    has one distinct composite key and an aggregate without rows. *)
Lemma groupby_sum_drops_dateless_key :
  rows (groupby_sum (mkFrame enrol_columns [enrol_row None "Bengaluru" 3 0]))
  = [].
Proof. reflexivity. Qed.

(** C2 (as amended). For a row whose enrolment_pressure + total_updates + 1
    is at most 2^53: the denominator is at least 1, the index lies in
    [0, 1), and it is 0 exactly when the row has no updates; with both
    components zero the formula gives 0. *)
Theorem dvi_in_unit_interval (r : AggRow) (ir : IndexedRow) :
  index_row r = Some ir →
  (dvi_denominator (enrolment_pressure ir) (total_updates ir) ≤ exact_max)%N →
  DVI ir = dvi (enrolment_pressure ir) (total_updates ir)
  ∧ (1 <= to_float (dvi_denominator (enrolment_pressure ir)
                      (total_updates ir)))%Q
  ∧ (0 <= DVI ir)%Q
  ∧ (DVI ir < 1)%Q
  ∧ ((DVI ir == 0)%Q ↔ total_updates ir = 0%N)
  ∧ (dvi 0 0 == 0)%Q.
Proof.
  intros (a05 & a517 & d517 & d17 & b517 & b17 & _ & _ & _ & _ & _ & _ & ->)
    %index_row_Some.
  cbn [DVI enrolment_pressure total_updates]. intros Hd.
  split; [done|]. split; [apply dvi_denominator_pos|].
  split; [apply dvi_nonneg|]. split; [by apply dvi_lt_1|].
  split; [by apply dvi_zero_iff|]. by vm_compute.
Qed.

Lemma dvi_in_unit_interval_witness :
  DVI (busy_row "Hubli")
  = dvi (enrolment_pressure (busy_row "Hubli")) (total_updates (busy_row "Hubli"))
  ∧ (1 <= to_float (dvi_denominator (enrolment_pressure (busy_row "Hubli"))
                      (total_updates (busy_row "Hubli"))))%Q
  ∧ (0 <= DVI (busy_row "Hubli"))%Q
  ∧ (DVI (busy_row "Hubli") < 1)%Q
  ∧ ((DVI (busy_row "Hubli") == 0)%Q ↔ total_updates (busy_row "Hubli") = 0%N)
  ∧ (dvi 0 0 == 0)%Q.
Proof.
  apply (dvi_in_unit_interval (base (busy_row "Hubli")) (busy_row "Hubli")
           eq_refl).
  by vm_compute.
Defined.

(** C2, as stated, fails. One key with no enrolments and 10^17 demographic
    updates: the denominator 10^17 + 1 is not a binary64 number and is
    converted to 10^17, so the division gives exactly 1. *)
Lemma dvi_reaches_one :
  ∃ ir,
    pipeline scenario_parse
      (mkFrame enrol_columns
         [enrol_row (Some "2024-01"%string) "Bengaluru" 0 0])
      (mkFrame demo_columns
         [demo_row (Some "2024-01"%string) "Bengaluru" 0 100000000000000000])
      (mkFrame bio_columns [])
    = Some [ir]
    ∧ enrolment_pressure ir = 0%N
    ∧ total_updates ir = 100000000000000000%N
    ∧ (DVI ir == 1)%Q
    ∧ ¬ (DVI ir < 1)%Q.
Proof.
  eexists. split; [by vm_compute|]. cbn [enrolment_pressure total_updates DVI].
  split; [done|]. split; [done|]. split; by vm_compute.
Qed.

(** C3. When the demographic and the biometric aggregate each have unique
    composite keys, the merged frame has exactly as many rows as the
    enrolment aggregate and carries its keys, in its order (uniqueness on
    the enrolment side is not needed); the two may be empty. *)
Theorem merged_row_count (E D B : Frame AggRow) :
  NoDup (key <$> rows D) → NoDup (key <$> rows B) →
  length (rows (merged E D B)) = length (rows E)
  ∧ key <$> rows (merged E D B) = key <$> rows E.
Proof.
  intros HD HB. pose proof (merged_keys E D B HD HB) as Hk.
  split; [|done]. by rewrite <-(length_fmap key), Hk, length_fmap.
Qed.

Lemma merged_row_count_witness :
  let E := mkFrame enrol_columns
             [mkAgg bengaluru_key (cells (enrol_row (Some 19723) "Bengaluru" 10 5));
              mkAgg (mkKey 19754 "KA" "Mysuru" 570001)
                    (cells (enrol_row (Some 19754) "Mysuru" 4 2))] in
  let D := mkFrame demo_columns [] in
  let B := mkFrame bio_columns [] in
  length (rows (merged E D B)) = 2%nat
  ∧ key <$> rows (merged E D B) = key <$> rows E.
Proof.
  intros E D B. apply (merged_row_count E D B); apply NoDup_nil_2.
Defined.

(** C4 (as amended). On a frame with no duplicate composite keys, no empty
    key cell and no empty measure cell, aggregation returns the same rows
    arranged in ascending key order; it returns the frame unchanged when
    the rows already are in that order. *)
Theorem groupby_sum_of_key_unique_frame (df : Frame (Row Z)) :
  NoDup (row_key <$> rows df) →
  (∀ r, r ∈ rows df → is_Some (row_key r)) →
  (∀ r, r ∈ rows df → complete (columns df) r) →
  rows (to_frame (groupby_sum df)) ≡ₚ rows df
  ∧ StronglySorted row_lt (rows (to_frame (groupby_sum df)))
  ∧ (StronglySorted row_lt (rows df) → to_frame (groupby_sum df) = df).
Proof.
  intros Hnd Hkey Hcomp.
  split; [by apply groupby_sum_rows_perm|].
  split; [apply groupby_sum_rows_sorted|].
  by apply groupby_sum_fixed.
Qed.

Lemma enrol_row_complete (d : option Z) di a b :
  complete enrol_columns (enrol_row d di a b).
Proof.
  intros c. unfold enrol_row, enrol_columns. simpl.
  rewrite !elem_of_cons, elem_of_nil.
  destruct (decide (c = "age_0_5"%string)) as [->|H1].
  { rewrite lookup_insert_eq. split; [by left|by eexists]. }
  rewrite lookup_insert_ne by done.
  destruct (decide (c = "age_5_17"%string)) as [->|H2].
  { rewrite lookup_singleton_eq. split; [by right; left|by eexists]. }
  rewrite lookup_singleton_ne by done. split; [by intros [??]|].
  intros [?|[?|[]]]; congruence.
Qed.

(** A frame that is already in aggregated form comes back unchanged. *)
Lemma groupby_sum_of_key_unique_frame_witness :
  let df := mkFrame enrol_columns
              [enrol_row (Some 19723) "Bengaluru" 3 4;
               enrol_row (Some 19754) "Bengaluru" 1 2] in
  to_frame (groupby_sum df) = df.
Proof.
  intros df. unfold df.
  assert (StronglySorted row_lt (rows df)) as Hs.
  { repeat constructor. by exists bengaluru_key, (mkKey 19754 "KA" "Bengaluru" 560001). }
  refine (proj2 (proj2 (groupby_sum_of_key_unique_frame _ _ _ _)) Hs).
  - apply (bool_decide_unpack _). by vm_compute.
  - intros r Hin. simpl in Hin.
    repeat (apply elem_of_cons in Hin as [->|Hin]);
      first [eexists; reflexivity | by apply elem_of_nil in Hin].
  - intros r Hin. simpl in Hin.
    repeat (apply elem_of_cons in Hin as [->|Hin]);
      first [exact (enrol_row_complete _ _ _ _) | by apply elem_of_nil in Hin].
Defined.

(** C4, as stated, fails on each of three frames with no duplicate keys:
    two records with the later month first come back in ascending key
    order; a lone record without a date does not come back; a lone record
    with an empty age_5_17 cell comes back with 0 in it. *)
Lemma groupby_sum_changes_key_unique_frames :
  let df1 := mkFrame enrol_columns
               [enrol_row (Some 19754) "Bengaluru" 1 2;
                enrol_row (Some 19723) "Bengaluru" 3 4] in
  let df2 := mkFrame enrol_columns [enrol_row None "Bengaluru" 3 0] in
  let df3 := mkFrame enrol_columns
               [mkRow (Some 19723) (Some "KA"%string) (Some "Bengaluru"%string)
                      (Some 560001) {[ "age_0_5"%string := 3%N ]}] in
  (NoDup (row_key <$> rows df1)
   ∧ rows (to_frame (groupby_sum df1))
     = [enrol_row (Some 19723) "Bengaluru" 3 4;
        enrol_row (Some 19754) "Bengaluru" 1 2]
   ∧ to_frame (groupby_sum df1) ≠ df1)
  ∧ (NoDup (row_key <$> rows df2)
     ∧ rows (to_frame (groupby_sum df2)) = []
     ∧ to_frame (groupby_sum df2) ≠ df2)
  ∧ (NoDup (row_key <$> rows df3)
     ∧ rows (to_frame (groupby_sum df3))
       = [enrol_row (Some 19723) "Bengaluru" 3 0]
     ∧ to_frame (groupby_sum df3) ≠ df3).
Proof.
  repeat split;
    first [ by vm_compute
          | apply (bool_decide_unpack _); by vm_compute
          | intros Heq; apply (f_equal rows) in Heq; vm_compute in Heq;
            discriminate ].
Qed.




(** C6 (as amended). A record whose date text the reader of its column
    does not read leaves the cleaning step with the NaT marker in its date
    cell, and no exception is raised for it: cleaning returns a frame
    whenever the district column is text. The record then has no group
    label, and the aggregate is the one the cleaned frame gives without
    that record. The script runs to the end on such input when, in
    addition, the district columns of the other two silos are text, no
    measure label occurs twice among the three silos and the six index
    labels are among them. *)
Theorem unparseable_date_is_coerced_then_left_out
    (P : DateParser) (df : Frame (Row string))
    (i : nat) (r : Row string) (s : string) :
  rows df !! i = Some r → date r = Some s →
  date_reader P (date <$> rows df) s = None →
  is_text_column (district <$> rows df) = true →
  ∃ df' r',
    normalize P df = Some df'
    ∧ rows df' !! i = Some r'
    ∧ date r' = None
    ∧ row_key r' = None
    ∧ groupby_sum df'
      = groupby_sum (mkFrame (columns df') (delete i (rows df')))
    ∧ ∀ d b,
        is_text_column (district <$> rows d) = true →
        is_text_column (district <$> rows b) = true →
        NoDup (columns df ++ columns d ++ columns b) →
        (∀ c, c ∈ index_columns → c ∈ columns df ++ columns d ++ columns b) →
        is_Some (pipeline P df d b).
Proof.
  intros Hi Hd Hp Htext. rewrite normalize_rows, Htext.
  set (clean := normalize_row (date_reader P (date <$> rows df))).
  assert (date (clean r) = None) as Hnat.
  { unfold clean, normalize_row. simpl. rewrite Hd. exact Hp. }
  assert ((clean <$> rows df) !! i = Some (clean r)) as Hr
    by by rewrite list_lookup_fmap, Hi.
  exists (mkFrame (columns df) (clean <$> rows df)), (clean r).
  split; [done|]. split; [done|]. split; [done|].
  split; [by apply row_key_no_date|].
  split; [|intros d b ????; by apply pipeline_completes].
  unfold groupby_sum. simpl. f_equal. f_equal.
  rewrite <-(take_drop_middle _ i _ Hr) at 1.
  rewrite delete_take_drop. by apply group_rows_skip, row_key_no_date.
Qed.

Lemma unparseable_date_is_coerced_then_left_out_witness :
  ∃ df' r',
    normalize scenario_parse
      (mkFrame enrol_columns
         [enrol_row (Some "2024-01"%string) "Bengaluru Urban" 10 5;
          enrol_row (Some "unknown"%string) "Bengaluru Urban" 1 1])
    = Some df'
    ∧ rows df' !! 1%nat = Some r'
    ∧ date r' = None
    ∧ row_key r' = None
    ∧ groupby_sum df'
      = groupby_sum (mkFrame (columns df') (delete 1%nat (rows df')))
    ∧ ∀ d b,
        is_text_column (district <$> rows d) = true →
        is_text_column (district <$> rows b) = true →
        NoDup (enrol_columns ++ columns d ++ columns b) →
        (∀ c, c ∈ index_columns → c ∈ enrol_columns ++ columns d ++ columns b) →
        is_Some
          (pipeline scenario_parse
             (mkFrame enrol_columns
                [enrol_row (Some "2024-01"%string) "Bengaluru Urban" 10 5;
                 enrol_row (Some "unknown"%string) "Bengaluru Urban" 1 1])
             d b).
Proof.
  exact (unparseable_date_is_coerced_then_left_out scenario_parse
           (mkFrame enrol_columns
              [enrol_row (Some "2024-01"%string) "Bengaluru Urban" 10 5;
               enrol_row (Some "unknown"%string) "Bengaluru Urban" 1 1])
           1%nat (enrol_row (Some "unknown"%string) "Bengaluru Urban" 1 1)
           "unknown"%string eq_refl eq_refl eq_refl eq_refl).
Defined.

(** C6, as stated, fails: of two records under one key, the one whose
    date text is not read is cleaned without an exception, and the
    aggregate of the cleaned frame holds the other record alone. *)
Lemma unparseable_date_row_not_aggregated :
  ∃ df',
    normalize scenario_parse
      (mkFrame enrol_columns
         [enrol_row (Some "2024-01"%string) "Bengaluru Urban" 10 5;
          enrol_row (Some "unknown"%string) "Bengaluru Urban" 1 1])
    = Some df'
    ∧ length (rows df') = 2%nat
    ∧ rows (groupby_sum df')
      = [mkAgg bengaluru_key (cells (enrol_row (Some 19723) "Bengaluru" 10 5))].
Proof. eexists. split; [by vm_compute|]. split; by vm_compute. Qed.

(** C7. In the merged frame of the three aggregates, a row whose key the
    demographic aggregate lacks holds 0 in every demographic measure
    column, and a row whose key the biometric aggregate lacks holds 0 in
    every biometric measure column (the measure labels of the three silos
    being distinct). One enrolment record with age_0_5 = 10, age_5_17 = 5
    and no update records gives one row with total_updates = 0 and DVI = 0,
    its district canonicalized to Bengaluru. *)
Theorem join_miss_is_zero_filled :
  (∀ (e d b : Frame (Row Z)) (o : AggRow) (c : string),
     o ∈ rows (merged (groupby_sum e) (groupby_sum d) (groupby_sum b)) →
     c ∉ columns e →
     (key o ∉ key <$> rows (groupby_sum d) → c ∈ columns d → c ∉ columns b →
      vals o !! c = Some 0%N)
     ∧ (key o ∉ key <$> rows (groupby_sum b) → c ∈ columns b → c ∉ columns d →
        vals o !! c = Some 0%N))
  ∧ ∃ ir,
      pipeline scenario_parse
        (mkFrame enrol_columns
           [enrol_row (Some "2024-01"%string) "Bengaluru Urban" 10 5])
        (mkFrame demo_columns []) (mkFrame bio_columns [])
      = Some [ir]
      ∧ key (base ir) = bengaluru_key
      ∧ enrolment_pressure ir = 15%N
      ∧ total_updates ir = 0%N
      ∧ (DVI ir == 0)%Q.
Proof.
  split.
  - intros e d b o c Ho Hce. unfold merged, fillna0 in Ho. simpl in Ho.
    apply list_elem_of_fmap in Ho as (o2 & -> & Ho2).
    destruct (join_miss_cell e d b o2 c Ho2 Hce) as [HD HB].
    split.
    + intros Hmiss Hcd Hcb. rewrite fillna_row_lookup, HD by done.
      rewrite decide_True; [done|]. rewrite !elem_of_app. auto.
    + intros Hmiss Hcb Hcd. rewrite fillna_row_lookup, HB by done.
      rewrite decide_True; [done|]. rewrite !elem_of_app. auto.
  - eexists. split; [by vm_compute|]. by vm_compute.
Qed.

(** Two enrolment keys, one of them without update records. *)
Lemma join_miss_is_zero_filled_witness :
  let e := mkFrame enrol_columns
             [enrol_row (Some 19723) "Bengaluru" 10 5;
              enrol_row (Some 19723) "Mysuru" 4 2] in
  let d := mkFrame demo_columns [demo_row (Some 19723) "Mysuru" 1 6] in
  let b := mkFrame bio_columns [bio_row (Some 19723) "Mysuru" 3 0] in
  let o := mkAgg bengaluru_key
             {[ "age_0_5"%string := 10%N; "age_5_17"%string := 5%N;
                "demo_age_5_17"%string := 0%N; "demo_age_17_"%string := 0%N;
                "bio_age_5_17"%string := 0%N; "bio_age_17_"%string := 0%N ]} in
  o ∈ rows (merged (groupby_sum e) (groupby_sum d) (groupby_sum b))
  ∧ vals o !! "demo_age_17_"%string = Some 0%N.
Proof.
  intros e d b o.
  assert (o ∈ rows (merged (groupby_sum e) (groupby_sum d) (groupby_sum b)))
    as Ho by (apply (bool_decide_unpack _); by vm_compute).
  split; [exact Ho|].
  refine (proj1 (proj1 join_miss_is_zero_filled e d b o _ Ho _) _ _ _);
    apply (bool_decide_unpack _); by vm_compute.
Defined.

(** C8. For a row whose six counts add up to less than 2^53, the index
    engine gives enrolment_pressure = age_0_5 + age_5_17, total_updates =
    demo_age_5_17 + demo_age_17_ + bio_age_5_17 + bio_age_17_ (the sums
    the script's additions give, on int64 and on float64 columns alike)
    and as DVI the binary64 number nearest to total_updates /
    (enrolment_pressure + total_updates + 1). With age_0_5 = 10,
    age_5_17 = 5, demo_age_17_ = 90 and bio_age_5_17 = 5 (the other two
    update cells 0) these are 15, 95 and the binary64 number nearest to
    95/111, which lies between 0.8558 and 0.8559. *)
Theorem index_row_formulas (r : AggRow) (a05 a517 d517 d17 b517 b17 : N) :
  vals r !! "age_0_5"%string = Some a05 →
  vals r !! "age_5_17"%string = Some a517 →
  vals r !! "demo_age_5_17"%string = Some d517 →
  vals r !! "demo_age_17_"%string = Some d17 →
  vals r !! "bio_age_5_17"%string = Some b517 →
  vals r !! "bio_age_17_"%string = Some b17 →
  (a05 + a517 + (d517 + d17 + b517 + b17) + 1 ≤ exact_max)%N →
  ∃ ir, index_row r = Some ir
    ∧ base ir = r
    ∧ enrolment_pressure ir = (a05 + a517)%N
    ∧ total_updates ir = (d517 + d17 + b517 + b17)%N
    ∧ int64_sum [a05; a517] = Z.of_N (enrolment_pressure ir)
    ∧ int64_sum [d517; d17; b517; b17] = Z.of_N (total_updates ir)
    ∧ (float64_plus [a05; a517]
       == inject_Z (Z.of_N (enrolment_pressure ir)))%Q
    ∧ (float64_plus [d517; d17; b517; b17]
       == inject_Z (Z.of_N (total_updates ir)))%Q
    ∧ is_double (DVI ir)
    ∧ (∀ f, is_double f →
         Qabs (DVI ir - dvi_quotient (a05 + a517) (d517 + d17 + b517 + b17))
         <= Qabs (f - dvi_quotient (a05 + a517) (d517 + d17 + b517 + b17)))%Q
    ∧ (a05 = 10%N → a517 = 5%N → d517 = 0%N → d17 = 90%N → b517 = 5%N →
       b17 = 0%N →
       enrolment_pressure ir = 15%N
       ∧ total_updates ir = 95%N
       ∧ (dvi_quotient 15 95 == 95 # 111)%Q
       ∧ (8558 # 10000 < DVI ir)%Q ∧ (DVI ir < 8559 # 10000)%Q).
Proof.
  intros H1 H2 H3 H4 H5 H6 Hmax.
  rewrite (index_row_cells r _ _ _ _ _ _ H1 H2 H3 H4 H5 H6).
  eexists. split; [done|]. cbn [base enrolment_pressure total_updates DVI].
  split; [done|]. split; [done|]. split; [done|].
  split; [rewrite int64_sum_exact; csimpl; unfold exact_max in Hmax; lia|].
  split; [rewrite int64_sum_exact; csimpl; unfold exact_max in Hmax; lia|].
  split.
  { rewrite float64_plus_exact by (csimpl; lia). csimpl.
    by rewrite N.add_0_r. }
  split.
  { rewrite float64_plus_exact by (csimpl; lia). csimpl.
    by replace (d517 + (d17 + (b517 + (b17 + 0))))%N
         with (d517 + d17 + b517 + b17)%N by lia. }
  assert (dvi (a05 + a517) (d517 + d17 + b517 + b17)
          == round64 (dvi_quotient (a05 + a517) (d517 + d17 + b517 + b17)))%Q
    as Hq by (by apply dvi_exact).
  split; [|split].
  - destruct (round64_double
                (dvi_quotient (a05 + a517) (d517 + d17 + b517 + b17)))
      as (m & e & Hm & He & Hf).
    exists m, e. split; [done|]. split; [done|]. by rewrite Hq.
  - intros f Hf. rewrite Hq. by apply round64_nearest.
  - intros -> -> -> -> -> ->. vm_compute. repeat split; reflexivity.
Qed.

Lemma index_row_formulas_witness :
  ∃ ir, index_row scenario_B_row = Some ir
    ∧ base ir = scenario_B_row
    ∧ enrolment_pressure ir = 15%N
    ∧ total_updates ir = 95%N
    ∧ (8558 # 10000 < DVI ir)%Q ∧ (DVI ir < 8559 # 10000)%Q.
Proof.
  destruct (index_row_formulas scenario_B_row 10 5 0 90 5 0
              eq_refl eq_refl eq_refl eq_refl eq_refl eq_refl)
    as (ir & Hir & Hb & _ & _ & _ & _ & _ & _ & _ & _ & HB); [by vm_compute|].
  destruct HB as (Hep & Htu & _ & Hlo & Hhi); try done.
  by exists ir.
Defined.

(** Scenario B run through the whole script: the merged row is
    [scenario_B_row]. *)
Lemma pipeline_scenario_B :
  pipeline scenario_parse
    (mkFrame enrol_columns
       [enrol_row (Some "2024-01"%string) "Bengaluru Urban" 10 5])
    (mkFrame demo_columns
       [demo_row (Some "2024-01"%string) " Bangalore Urban" 0 90])
    (mkFrame bio_columns
       [bio_row (Some "2024-01"%string) "Bengaluru" 5 0])
  = (λ ir, [ir]) <$> index_row scenario_B_row.
Proof. by vm_compute. Qed.


(** C10. The zero fill reaches every measure column of the merged frame,
    whichever silo the column came from: an empty cell of a merged row is
    0 afterwards, a cell with a value keeps it, and the key is kept. *)
Theorem fillna0_fills_every_column (E D B : Frame AggRow) (i : nat)
    (r : AggRow) (c : string) :
  rows (merge_left (merge_left E D) B) !! i = Some r →
  c ∈ columns E ++ columns D ++ columns B →
  ∃ r', rows (merged E D B) !! i = Some r'
    ∧ key r' = key r
    ∧ vals r' !! c = Some (default 0%N (vals r !! c)).
Proof.
  intros Hi Hc. exists (fillna_row (columns E ++ columns D ++ columns B) r).
  split.
  - unfold merged, fillna0. cbn [rows].
    rewrite list_lookup_fmap, Hi. simpl. by rewrite <-(assoc_L (++)).
  - split; [done|]. rewrite fillna_row_lookup.
    destruct (vals r !! c); [done|]. by rewrite decide_True.
Qed.

(** An enrolment row with an empty age_5_17 cell. *)
Lemma fillna0_fills_every_column_witness :
  let E := mkFrame enrol_columns
             [mkAgg bengaluru_key {[ "age_0_5"%string := 10%N ]}] in
  let D := mkFrame demo_columns [] in
  let B := mkFrame bio_columns [] in
  ∃ r', rows (merged E D B) !! 0%nat = Some r'
    ∧ key r' = bengaluru_key
    ∧ vals r' !! "age_5_17"%string = Some 0%N.
Proof.
  intros E D B.
  assert ("age_5_17"%string ∈ columns E ++ columns D ++ columns B) as Hc
    by (apply (bool_decide_unpack _); by vm_compute).
  exact (fillna0_fills_every_column E D B 0
           (mkAgg bengaluru_key {[ "age_0_5"%string := 10%N ]})
           "age_5_17"%string eq_refl Hc).
Defined.

(** * Further properties *)

(** ** Step 3: the aggregate *)

(** X1. Aggregating a second time changes nothing: the aggregate of an
    aggregate, written back as a table, is that aggregate. *)
Theorem groupby_sum_twice (df : Frame (Row Z)) :
  groupby_sum (to_frame (groupby_sum df)) = groupby_sum df.
Proof. apply groupby_sum_idempotent. Qed.




#[global] Instance agg_key_lt_antisym :
  AntiSymm (=) (λ a b : AggRow, key_lt (key a) (key b)).
Proof.
  intros a b Hab Hba. destruct (key_lt_irrefl (key a)). by trans (key b).
Qed.




(** ** Totals are kept by the grouping *)

Section GroupingTotals.
Context {K R A : Type}.
Context (cmp : K → K → comparison) (label : R → option K).
Context (init : A) (step : A → R → A).
Context (w : A → N) (v : R → N).
Hypothesis w_first : ∀ r, w (step init r) = v r.
Hypothesis w_step : ∀ a r, w (step a r) = (w a + v r)%N.

Lemma bucket_add_total k r (bs : list (K * A)) :
  foldr N.add 0%N ((λ b, w b.2) <$> bucket_add cmp init step k r bs)
  = (foldr N.add 0%N ((λ b, w b.2) <$> bs) + v r)%N.
Proof.
  induction bs as [|[k' a] bs IH]; csimpl.
  - rewrite w_first. lia.
  - destruct (cmp k k'); csimpl.
    + rewrite w_step. lia.
    + rewrite w_first. lia.
    + rewrite IH. lia.
Qed.

Lemma group_rows_total (rs : list R) :
  foldr N.add 0%N ((λ b, w b.2) <$> group_rows cmp label init step rs)
  = foldr N.add 0%N (v <$> filter (λ r, is_Some (label r)) rs).
Proof.
  unfold group_rows.
  assert (∀ bs,
    foldr N.add 0%N ((λ b, w b.2) <$> fold_left (group_step cmp label init step) rs bs)
    = (foldr N.add 0%N ((λ b, w b.2) <$> bs)
       + foldr N.add 0%N (v <$> filter (λ r, is_Some (label r)) rs))%N) as H.
  { induction rs as [|r rs IH]; intros bs; csimpl; [lia|].
    rewrite IH, filter_cons. unfold group_step.
    destruct (label r) as [k|] eqn:E.
    - rewrite decide_True by by eexists. csimpl. rewrite bucket_add_total. lia.
    - rewrite decide_False; [done|]. by intros [??]. }
  rewrite H. csimpl. lia.
Qed.
End GroupingTotals.

(** X3. Under a measure column whose total over the records that have a
    composite key is at most 2^53, the cells of the aggregate add up to
    that total: grouping moves counts into buckets and neither adds nor
    loses any. *)
Theorem groupby_sum_keeps_totals (df : Frame (Row Z)) (c : string) :
  c ∈ columns df →
  (col_sum c (filter (λ r, is_Some (row_key r)) (rows df)) ≤ exact_max)%N →
  col_sum c (to_row <$> rows (groupby_sum df))
  = col_sum c (filter (λ r, is_Some (row_key r)) (rows df)).
Proof.
  intros Hc _. unfold col_sum, groupby_sum. cbn [rows].
  rewrite <-!list_fmap_compose.
  rewrite <-(group_rows_total key_compare row_key (zero_cells (columns df))
               (add_cells (columns df)) (λ a, default 0%N (a !! c))
               (λ r, default 0%N (cells r !! c))); [done|..].
  - intros r. rewrite add_cells_lookup, decide_True by done.
    rewrite zero_cells_lookup, decide_True by done. simpl. lia.
  - intros a r. by rewrite add_cells_lookup, decide_True by done.
Qed.

Lemma groupby_sum_keeps_totals_witness :
  col_sum "age_0_5"
    (to_row <$> rows (groupby_sum
       (mkFrame enrol_columns
          [enrol_row (Some 19754) "Mysuru" 1 2;
           enrol_row None "Mysuru" 100 100;
           enrol_row (Some 19723) "Bengaluru" 3 4;
           enrol_row (Some 19754) "Mysuru" 5 6])))
  = 9%N.
Proof.
  rewrite (groupby_sum_keeps_totals _ "age_0_5");
    [reflexivity|by repeat constructor|by vm_compute].
Defined.

(** ** The master table *)

Lemma merged_cell_sums (e d b : Frame (Row Z)) (o : AggRow) :
  o ∈ rows (merged (groupby_sum e) (groupby_sum d) (groupby_sum b)) →
  (∀ c, c ∈ columns e → c ∉ columns d → c ∉ columns b →
     vals o !! c = Some (col_sum c (members row_key (key o) (rows e))))
  ∧ (∀ c, c ∈ columns d → c ∉ columns e → c ∉ columns b →
       vals o !! c = Some (col_sum c (members row_key (key o) (rows d))))
  ∧ (∀ c, c ∈ columns b → c ∉ columns e → c ∉ columns d →
       vals o !! c = Some (col_sum c (members row_key (key o) (rows b)))).
Proof.
  intros Ho. unfold merged, fillna0 in Ho. cbn [rows] in Ho.
  apply list_elem_of_fmap in Ho as (o2 & -> & Ho2).
  pose proof Ho2 as Ho2'.
  apply elem_of_merge_left in Ho2 as (l2 & Hl2 & Hk2 & Hb).
  apply elem_of_merge_left in Hl2 as (l & Hl & Hk & Hd).
  assert (∀ (f : Frame (Row Z)) c, c ∈ columns f →
            key o2 ∉ key <$> rows (groupby_sum f) →
            col_sum c (members row_key (key o2) (rows f)) = 0%N) as Hzero.
  { intros f c Hc Hmiss.
    destruct (members row_key (key o2) (rows f)) as [|r g] eqn:E; [done|].
    destruct Hmiss. apply groupby_sum_has_key.
    assert (r ∈ members row_key (key o2) (rows f)) as Hr by (rewrite E; left).
    apply (list_elem_of_filter (λ r, row_key r = Some (key o2))) in Hr as [??].
    by exists r. }
  cbn [key fillna_row]. repeat split.
  - intros c Hc _ _. rewrite fillna_row_lookup.
    assert (vals o2 !! c = Some (col_sum c (members row_key (key o2) (rows e))))
      as ->; [|done].
    rewrite Hk2, Hk.
    assert (vals l !! c = Some (col_sum c (members row_key (key l) (rows e))))
      as Hlc by by apply groupby_sum_cell.
    assert (vals l2 !! c = Some (col_sum c (members row_key (key l) (rows e))))
      as Hl2c.
    { destruct Hd as [[-> _]|(rd & _ & _ & ->)]; [done|].
      by apply lookup_union_Some_l. }
    destruct Hb as [[-> _]|(rb & _ & _ & ->)]; [done|].
    by apply lookup_union_Some_l.
  - intros c Hcd Hce Hcb. rewrite fillna_row_lookup.
    destruct (decide (key o2 ∈ key <$> rows (groupby_sum d))) as [Hin|Hmiss].
    + destruct Hd as [[_ Hnin]|(rd & Hrd & Hkd & Hv)].
      { destruct Hnin. by rewrite <-Hk, <-Hk2. }
      assert (vals l2 !! c
              = Some (col_sum c (members row_key (key o2) (rows d)))) as Hl2c.
      { rewrite Hv, lookup_union_r by by apply (groupby_sum_no_cell e).
        rewrite Hk2, Hk, <-Hkd. by apply groupby_sum_cell. }
      destruct Hb as [[-> _]|(rb & _ & _ & ->)]; [by rewrite Hl2c|].
      by rewrite (lookup_union_Some_l _ _ _ _ Hl2c).
    + destruct (join_miss_cell e d b o2 c Ho2' Hce) as [HD _].
      rewrite (HD Hmiss Hcb).
      rewrite decide_True, (Hzero d)
        by (try done; cbn [columns merge_left groupby_sum];
            rewrite !elem_of_app; auto).
      done.
  - intros c Hcb Hce Hcd. rewrite fillna_row_lookup.
    destruct (decide (key o2 ∈ key <$> rows (groupby_sum b))) as [Hin|Hmiss].
    + destruct Hb as [[_ Hnin]|(rb & Hrb & Hkb & Hv)].
      { destruct Hnin. by rewrite <-Hk2. }
      assert (vals l2 !! c = None) as Hl2c.
      { destruct Hd as [[-> _]|(rd & Hrd & _ & ->)];
          [by apply (groupby_sum_no_cell e)|].
        apply lookup_union_None_2;
          [by apply (groupby_sum_no_cell e)|by apply (groupby_sum_no_cell d)]. }
      rewrite Hv, lookup_union_r by done.
      rewrite Hk2, <-Hkb. by rewrite (groupby_sum_cell b rb c Hrb Hcb).
    + destruct (join_miss_cell e d b o2 c Ho2' Hce) as [_ HB].
      rewrite (HB Hmiss Hcd).
      rewrite decide_True, (Hzero b)
        by (try done; cbn [columns merge_left groupby_sum];
            rewrite !elem_of_app; auto).
      done.
Qed.

(** X4. In the master table built from the three silos every row keeps,
    under each enrolment column, the sum of the enrolment records with the
    row's key, and holds, under each demographic (biometric) column, the
    sum of the demographic (biometric) records with that key, which is 0
    when there are none. Measure labels are taken to belong to one silo,
    and a sum to be at most 2^53. *)
Theorem master_cell_is_silo_sum (e d b : Frame (Row Z)) (o : AggRow) :
  o ∈ rows (merged (groupby_sum e) (groupby_sum d) (groupby_sum b)) →
  (∀ c, c ∈ columns e → c ∉ columns d → c ∉ columns b →
     (col_sum c (members row_key (key o) (rows e)) ≤ exact_max)%N →
     vals o !! c = Some (col_sum c (members row_key (key o) (rows e))))
  ∧ (∀ c, c ∈ columns d → c ∉ columns e → c ∉ columns b →
       (col_sum c (members row_key (key o) (rows d)) ≤ exact_max)%N →
       vals o !! c = Some (col_sum c (members row_key (key o) (rows d))))
  ∧ (∀ c, c ∈ columns b → c ∉ columns e → c ∉ columns d →
       (col_sum c (members row_key (key o) (rows b)) ≤ exact_max)%N →
       vals o !! c = Some (col_sum c (members row_key (key o) (rows b)))).
Proof.
  intros Ho. destruct (merged_cell_sums e d b o Ho) as (HE & HD & HB).
  repeat split; intros c ??? _; auto.
Qed.

Lemma master_cell_is_silo_sum_witness :
  let e := mkFrame enrol_columns
             [enrol_row (Some 19723) "Bengaluru" 10 5;
              enrol_row (Some 19723) "Mysuru" 4 2;
              enrol_row (Some 19723) "Bengaluru" 1 1] in
  let d := mkFrame demo_columns
             [demo_row (Some 19723) "Bengaluru" 1 6;
              demo_row (Some 19723) "Bengaluru" 2 30] in
  let b := mkFrame bio_columns [bio_row (Some 19723) "Mysuru" 3 0] in
  let o := mkAgg bengaluru_key
             {[ "age_0_5"%string := 11%N; "age_5_17"%string := 6%N;
                "demo_age_5_17"%string := 3%N; "demo_age_17_"%string := 36%N;
                "bio_age_5_17"%string := 0%N; "bio_age_17_"%string := 0%N ]} in
  o ∈ rows (merged (groupby_sum e) (groupby_sum d) (groupby_sum b))
  ∧ col_sum "demo_age_17_" (members row_key (key o) (rows d)) = 36%N
  ∧ col_sum "bio_age_5_17" (members row_key (key o) (rows b)) = 0%N.
Proof.
  intros e d b o.
  assert (o ∈ rows (merged (groupby_sum e) (groupby_sum d) (groupby_sum b)))
    as Ho by (apply (bool_decide_unpack _); by vm_compute).
  destruct (master_cell_is_silo_sum e d b o Ho) as (_ & HD & HB).
  split; [exact Ho|]. split.
  - assert (vals o !! "demo_age_17_"%string
            = Some (col_sum "demo_age_17_" (members row_key (key o) (rows d))))
      as H by (apply HD; first [ by vm_compute
                               | apply (bool_decide_unpack _); by vm_compute ]).
    vm_compute in H. vm_compute. congruence.
  - assert (vals o !! "bio_age_5_17"%string
            = Some (col_sum "bio_age_5_17" (members row_key (key o) (rows b))))
      as H by (apply HB; first [ by vm_compute
                               | apply (bool_decide_unpack _); by vm_compute ]).
    vm_compute in H. vm_compute. congruence.
Defined.

(** X5. Whatever the two update silos hold, the master table has exactly
    the keys of the enrolment aggregate, in ascending order and each once:
    one row for every composite key that an enrolment record carries in
    full, and no other row. *)
Theorem master_has_the_enrolment_keys (e d b : Frame (Row Z)) :
  key <$> rows (merged (groupby_sum e) (groupby_sum d) (groupby_sum b))
  = key <$> rows (groupby_sum e)
  ∧ StronglySorted key_lt
      (key <$> rows (merged (groupby_sum e) (groupby_sum d) (groupby_sum b)))
  ∧ ∀ k, k ∈ key <$> rows (merged (groupby_sum e) (groupby_sum d)
                              (groupby_sum b))
         ↔ ∃ r, r ∈ rows e ∧ row_key r = Some k.
Proof.
  assert (key <$> rows (merged (groupby_sum e) (groupby_sum d) (groupby_sum b))
          = key <$> rows (groupby_sum e)) as Hk
    by (apply merged_keys; apply groupby_sum_NoDup).
  rewrite Hk. split; [done|]. split; [apply groupby_sum_sorted|].
  apply groupby_sum_has_key.
Qed.

(** X6. A left join repeats a left row once for every right row with its
    key, and keeps it once when there is none: joining a silo that was not
    aggregated first would multiply the rows of a key by the number of its
    records there. No left row is ever lost. *)
Theorem merge_left_repeats_left_rows (L R : Frame AggRow) :
  key <$> rows (merge_left L R)
  = rows L ≫= (λ l, replicate
                      (Nat.max 1 (length (filter (λ r, key r = key l) (rows R))))
                      (key l))
  ∧ (length (rows L) ≤ length (rows (merge_left L R)))%nat.
Proof.
  unfold merge_left. cbn [rows].
  assert (∀ l, key <$> merge_row (rows R) l
               = replicate
                   (Nat.max 1 (length (filter (λ r, key r = key l) (rows R))))
                   (key l)) as Hrow.
  { intros l. unfold merge_row.
    destruct (filter (λ r, key r = key l) (rows R)) as [|m ms]; [reflexivity|].
    rewrite <-list_fmap_compose.
    replace (Nat.max 1 (length (m :: ms))) with (length (m :: ms))
      by (simpl; lia).
    generalize (m :: ms). intros xs. induction xs as [|x xs IH]; [done|].
    csimpl. by rewrite IH. }
  split.
  - induction (rows L) as [|l ls IH]; [done|].
    by rewrite !bind_cons, fmap_app, IH, Hrow.
  - induction (rows L) as [|l ls IH]; [done|].
    rewrite bind_cons, length_app. csimpl.
    assert (1 ≤ length (merge_row (rows R) l))%nat; [|lia].
    rewrite <-(length_fmap key), Hrow, length_replicate. lia.
Qed.

(** ** The index *)

(** X7. Among rows whose enrolment_pressure + total_updates + 1 is at
    most 2^53, the index does not fall when the update count grows and
    does not rise when the enrolment pressure grows. *)
Theorem dvi_monotone (ep ep' tu tu' : N) :
  (ep' ≤ ep)%N → (tu ≤ tu')%N →
  (dvi_denominator ep tu ≤ exact_max)%N →
  (dvi_denominator ep' tu' ≤ exact_max)%N →
  (dvi ep tu <= dvi ep' tu')%Q.
Proof. apply dvi_mono. Qed.

Lemma dvi_monotone_witness : (dvi 15 0 <= dvi 15 95)%Q ∧ (dvi 15 95 <= dvi 3 95)%Q.
Proof. split; apply dvi_monotone; by vm_compute. Defined.

(** X8. A row whose enrolment_pressure + total_updates + 1 is at most 2^53
    passes the identity-desert filter exactly when its enrolment pressure
    is at least nine times its update count. *)
Theorem is_desert_iff_nine_times (r : AggRow) (ir : IndexedRow) :
  index_row r = Some ir →
  (dvi_denominator (enrolment_pressure ir) (total_updates ir) ≤ exact_max)%N →
  is_desert ir = true ↔ (9 * total_updates ir ≤ enrolment_pressure ir)%N.
Proof.
  intros (a05 & a517 & d517 & d17 & b517 & b17 & _ & _ & _ & _ & _ & _ & ->)
    %index_row_Some.
  rewrite is_desert_iff. cbn [DVI total_updates enrolment_pressure].
  apply dvi_lt_threshold.
Qed.

Lemma is_desert_iff_nine_times_witness :
  is_desert (no_update_row "Mysuru") = true
  ↔ (9 * total_updates (no_update_row "Mysuru")
     ≤ enrolment_pressure (no_update_row "Mysuru"))%N.
Proof.
  apply (is_desert_iff_nine_times (base (no_update_row "Mysuru"))
           (no_update_row "Mysuru") eq_refl).
  by vm_compute.
Defined.

(** ** Cleaning *)

Lemma lstrip_fixed s : starts_with_space s = false → lstrip s = s.
Proof. destruct s as [|c s]; simpl; [done|]. by intros ->. Qed.

Lemma rstrip_fixed s : ends_with_space s = false → rstrip s = s.
Proof.
  induction s as [|c s IH]; [done|]. cbn [ends_with_space rstrip].
  destruct s as [|c' s].
  - simpl. by intros ->.
  - intros He. by rewrite (IH He).
Qed.

(** X9. Cleaning a district name a second time changes nothing. *)
Theorem clean_district_cell_idempotent (s : string) :
  clean_district_cell (clean_district_cell s) = clean_district_cell s.
Proof.
  assert (clean_district_cell s
          = if decide (strip s = "Bangalore Urban"%string
                       ∨ strip s = "Bengaluru Urban"%string)
            then "Bengaluru"%string else strip s) as Hs
    by apply replace_aliases.
  destruct (decide _) as [H|H]; rewrite Hs; [by vm_compute|].
  destruct (strip_spec s) as (l & r & _ & _ & _ & Hst & He).
  unfold clean_district_cell.
  assert (strip (strip s) = strip s) as ->.
  { unfold strip at 1. by rewrite (lstrip_fixed _ Hst), (rstrip_fixed _ He). }
  rewrite replace_aliases. by rewrite decide_False.
Qed.

(** ** Means of index values *)

Lemma sum_lower_bound (lo : Q) (qs : list Q) :
  Forall (λ q, lo <= q)%Q qs →
  (lo * inject_Z (Z.of_nat (length qs)) <= foldr Qplus 0 qs)%Q.
Proof.
  induction 1 as [|q qs Hq _ IH]; cbn [length foldr].
  - change (inject_Z (Z.of_nat 0)) with 0%Q. lra.
  - rewrite Nat2Z.inj_succ, <-Z.add_1_r, inject_Z_plus.
    change (inject_Z 1) with 1%Q. lra.
Qed.

Lemma sum_upper_bound (hi : Q) (qs : list Q) :
  Forall (λ q, q <= hi)%Q qs →
  (foldr Qplus 0 qs <= hi * inject_Z (Z.of_nat (length qs)))%Q.
Proof.
  induction 1 as [|q qs Hq _ IH]; cbn [length foldr].
  - change (inject_Z (Z.of_nat 0)) with 0%Q. lra.
  - rewrite Nat2Z.inj_succ, <-Z.add_1_r, inject_Z_plus.
    change (inject_Z 1) with 1%Q. lra.
Qed.

(** The mean of values in an interval lies in it. *)
Lemma mean_bounds (lo hi : Q) (qs : list Q) :
  qs ≠ [] → Forall (λ q, lo <= q ∧ q <= hi)%Q qs →
  (lo <= mean qs)%Q ∧ (mean qs <= hi)%Q.
Proof.
  intros Hne Hall. unfold mean.
  assert (0 < inject_Z (Z.of_nat (length qs)))%Q as Hn.
  { destruct qs; [done|]. unfold Qlt. simpl. lia. }
  split.
  - apply Qle_shift_div_l; [done|]. apply sum_lower_bound.
    eapply Forall_impl; [exact Hall|]. by intros q [??].
  - apply Qle_shift_div_r; [done|]. apply sum_upper_bound.
    eapply Forall_impl; [exact Hall|]. by intros q [??].
Qed.

Lemma index_engine_rows df irs ir :
  index_engine df = Some irs → ir ∈ irs → ∃ r, index_row r = Some ir.
Proof.
  intros [_ Hm]%index_engine_Some Hin.
  apply list_elem_of_lookup in Hin as [i Hi].
  destruct (Forall2_lookup_r _ _ _ _ _ Hm Hi) as (r & _ & Hr). by exists r.
Qed.

Lemma index_engine_dvi_range df irs ir :
  index_engine df = Some irs → ir ∈ irs → (0 <= DVI ir)%Q ∧ (DVI ir <= 1)%Q.
Proof.
  intros Hdf Hin. destruct (index_engine_rows df irs ir Hdf Hin) as [r Hr].
  apply index_row_Some in Hr
    as (a05 & a517 & d517 & d17 & b517 & b17 & _ & _ & _ & _ & _ & _ & ->).
  simpl. split; [apply dvi_nonneg|apply dvi_le_1].
Qed.

(** ** Identity deserts *)





(** ** The heatmap table *)

Lemma members_pincode p irs :
  members (λ ir, Some (row_pincode ir)) p irs
  = filter (λ ir, row_pincode ir = p) irs.
Proof.
  unfold members. apply list_filter_iff.
  intros ir. split; [by intros [= ->]|by intros ->].
Qed.

Lemma elem_of_heatmap_data irs p m :
  (p, m) ∈ heatmap_data irs →
  filter (λ ir, row_pincode ir = p) irs ≠ []
  ∧ (m == mean (DVI <$> filter (λ ir, row_pincode ir = p) irs))%Q.
Proof.
  unfold heatmap_data.
  intros ([p' acc] & [= -> ->] & Hin)%list_elem_of_fmap. simpl.
  apply (elem_of_group_rows Z.compare) in Hin as [Hne ->].
  rewrite members_pincode in *. split; [done|]. apply mean_of_bucket_fold.
Qed.

(** X12. The heatmap table has one row per pincode that occurs in the
    master table, in ascending order of pincode, and the row holds the
    mean DVI of the rows with that pincode. *)
Theorem heatmap_one_row_per_pincode (irs : list IndexedRow) :
  StronglySorted Z.lt (heatmap_data irs).*1
  ∧ (∀ p, p ∈ (heatmap_data irs).*1 ↔ ∃ ir, ir ∈ irs ∧ row_pincode ir = p)
  ∧ ∀ p m, (p, m) ∈ heatmap_data irs →
      (m == mean (DVI <$> filter (λ ir, row_pincode ir = p) irs))%Q.
Proof.
  assert ((heatmap_data irs).*1
          = (group_rows Z.compare (λ ir, Some (row_pincode ir))
               (0%Q, 0%nat) mean_step irs).*1) as Hk
    by (unfold heatmap_data; by rewrite <-list_fmap_compose).
  rewrite Hk. split; [apply (group_rows_sorted Z.compare)|]. split.
  - intros p. rewrite (group_rows_keys Z.compare). split.
    + intros (ir & Hin & [= <-]). by exists ir.
    + intros (ir & Hin & <-). by exists ir.
  - intros p m Hin. by apply elem_of_heatmap_data.
Qed.

(** X13. For the rows the index engine produces from counts with
    enrolment_pressure + total_updates + 1 at most 2^53, every mean in the
    heatmap table is at least 0 and at most 1. *)
Theorem heatmap_means_in_unit_interval (df : Frame AggRow)
    (irs : list IndexedRow) (p : Z) (m : Q) :
  index_engine df = Some irs →
  (∀ ir, ir ∈ irs →
     (dvi_denominator (enrolment_pressure ir) (total_updates ir)
      ≤ exact_max)%N) →
  (p, m) ∈ heatmap_data irs →
  (0 <= m)%Q ∧ (m <= 1)%Q.
Proof.
  intros Hdf _ [Hne Hm]%elem_of_heatmap_data. rewrite Hm.
  apply mean_bounds.
  - intros E. by apply fmap_nil_inv in E.
  - apply Forall_fmap, Forall_forall. intros ir Hir.
    apply list_elem_of_filter in Hir as [_ Hir].
    by apply (index_engine_dvi_range df irs).
Qed.

Lemma heatmap_means_in_unit_interval_witness :
  (0 <= 7708864227030579 # 18014398509481984)%Q
  ∧ (7708864227030579 # 18014398509481984 <= 1)%Q.
Proof.
  apply (heatmap_means_in_unit_interval
           (mkFrame index_columns
              [base (no_update_row "Mysuru"); base (busy_row "Hubli")])
           [no_update_row "Mysuru"; busy_row "Hubli"] 560001
           (7708864227030579 # 18014398509481984) eq_refl).
  - intros ir Hir.
    repeat (apply elem_of_cons in Hir as [->|Hir]);
      first [by apply elem_of_nil in Hir|by vm_compute].
  - vm_compute. left.
Defined.

(** ** The files of a silo *)










(** ** The case studies *)

Lemma prefix_ci_spec pat s :
  prefix_ci pat s = true
  ↔ ∃ m b, s = (m +:+ b)%string ∧ lower_string m = lower_string pat.
Proof.
  revert s. induction pat as [|a pat IH]; intros s.
  - split; [|done]. intros _. by exists EmptyString, s.
  - destruct s as [|c s].
    + split; [done|]. intros (m & b & Hs & Hm).
      destruct m; [discriminate Hm|discriminate Hs].
    + cbn [prefix_ci]. rewrite andb_true_iff, IH. split.
      * intros [Hc (m & b & -> & Hm)]. exists (String c m), b.
        split; [done|]. simpl. apply Ascii.eqb_eq in Hc. congruence.
      * intros (m & b & Hs & Hm). destruct m as [|c' m]; [done|].
        simpl in Hs, Hm. injection Hs as <- ->. injection Hm as Hc Hm.
        split; [apply Ascii.eqb_eq; congruence|]. by exists m, b.
Qed.

(** X15. The district filter of the case studies keeps a name exactly when
    the pattern occurs in it somewhere, letter case aside. *)
Theorem contains_ci_spec (pat s : string) :
  contains_ci pat s = true
  ↔ ∃ a m b, s = (a +:+ m +:+ b)%string ∧ lower_string m = lower_string pat.
Proof.
  induction s as [|c s IH].
  - cbn [contains_ci]. rewrite orb_false_r, prefix_ci_spec. split.
    + intros (m & b & Hs & Hm). by exists EmptyString, m, b.
    + intros (a & m & b & Hs & Hm). destruct a; [by exists m, b|done].
  - cbn [contains_ci]. rewrite orb_true_iff, prefix_ci_spec, IH. split.
    + intros [(m & b & Hs & Hm)|(a & m & b & Hs & Hm)].
      * by exists EmptyString, m, b.
      * exists (String c a), m, b. by rewrite Hs.
    + intros (a & m & b & Hs & Hm). destruct a as [|c' a].
      * left. by exists m, b.
      * right. simpl in Hs. injection Hs as _ ->. by exists a, m, b.
Qed.

(** X16. How cleaning and the case-study filters compose: a raw district
    name reaches the Bengaluru study exactly when its trimmed form is
    Bangalore Urban or contains Bengaluru in some letter case, and reaches
    the Sitamarhi study exactly when its trimmed form contains Sitamarhi
    in some letter case. *)
Theorem case_study_selection_of_raw_names (s : string) :
  (contains_ci "Bengaluru" (clean_district_cell s) = true
   ↔ strip s = "Bangalore Urban"%string
     ∨ contains_ci "Bengaluru" (strip s) = true)
  ∧ (contains_ci "Sitamarhi" (clean_district_cell s) = true
     ↔ contains_ci "Sitamarhi" (strip s) = true).
Proof.
  assert (clean_district_cell s
          = if decide (strip s = "Bangalore Urban"%string
                       ∨ strip s = "Bengaluru Urban"%string)
            then "Bengaluru"%string else strip s) as ->
    by apply replace_aliases.
  destruct (decide _) as [[H|H]|H]; rewrite ?H; split;
    vm_compute; intuition congruence.
Qed.

Lemma fold_left_add_cells_base cols (sub : list IndexedRow) acc :
  fold_left (λ acc ir, add_cells cols acc (to_row (base ir))) sub acc
  = fold_left (add_cells cols) (to_row ∘ base <$> sub) acc.
Proof.
  revert acc. induction sub as [|ir sub IH]; intros acc; [done|].
  csimpl. by rewrite IH.
Qed.

(** X17. A case-study table has one row per calendar month in which a
    selected row falls, in ascending order of month, and under each of its
    columns the row holds the sum of that column over the selected rows of
    the month, as long as that sum is at most 2^53. The selected rows are
    those whose district passes the filter. *)
Theorem monthly_sums_per_month (to_period_M : Z → Z) (pat : string)
    (cols : list string) (irs : list IndexedRow) :
  StronglySorted Z.lt
    (monthly_sums to_period_M cols (district_contains pat irs)).*1
  ∧ (∀ mo, mo ∈ (monthly_sums to_period_M cols (district_contains pat irs)).*1
           ↔ ∃ ir, ir ∈ irs
                   ∧ contains_ci pat (row_district ir) = true
                   ∧ to_period_M (row_date ir) = mo)
  ∧ ∀ mo a c,
      (mo, a) ∈ monthly_sums to_period_M cols (district_contains pat irs) →
      c ∈ cols →
      (col_sum c
         (to_row ∘ base <$>
            filter (λ ir, to_period_M (row_date ir) = mo)
              (district_contains pat irs)) ≤ exact_max)%N →
      a !! c
      = Some (col_sum c
                (to_row ∘ base <$>
                   filter (λ ir, to_period_M (row_date ir) = mo)
                     (district_contains pat irs))).
Proof.
  unfold monthly_sums. split; [apply (group_rows_sorted Z.compare)|]. split.
  - intros mo. rewrite (group_rows_keys Z.compare). split.
    + intros (ir & Hin & [= <-]). exists ir.
      by apply list_elem_of_filter in Hin as [??].
    + intros (ir & Hin & Hc & <-). exists ir. split; [|done].
      by apply list_elem_of_filter.
  - intros mo a c Hin Hc _.
    apply (elem_of_group_rows Z.compare) in Hin as [Hne ->].
    assert (members (λ ir, Some (to_period_M (row_date ir))) mo
              (district_contains pat irs)
            = filter (λ ir, to_period_M (row_date ir) = mo)
                (district_contains pat irs)) as Hm.
    { unfold members. apply list_filter_iff.
      intros ir. split; [by intros [= ->]|by intros ->]. }
    rewrite Hm in *. rewrite fold_left_add_cells_base.
    apply bucket_sum_lookup; [|done].
    intros E. by apply fmap_nil_inv in E.
Qed.

(** The Bengaluru study over three rows of January 2024 (month 648 from
    January 1970): the two Bengaluru rows are summed, the Mysuru row is
    left out. *)
Lemma bengaluru_monthly_example :
  bengaluru_monthly scenario_month
    [busy_row "Bengaluru"; busy_row "Mysuru"; busy_row "bengaluru Rural"]
  = [(648, {[ "demo_age_17_"%string := 180%N ]})].
Proof. by vm_compute. Qed.

(** X18. Under a column whose total over the selected rows is at most
    2^53, a case-study table adds up, over its months, to that total:
    every selected row is counted in exactly one month. *)
Theorem monthly_sums_keep_totals (to_period_M : Z → Z) (pat : string)
    (cols : list string) (irs : list IndexedRow) (c : string) :
  c ∈ cols →
  (col_sum c (to_row ∘ base <$> district_contains pat irs) ≤ exact_max)%N →
  foldr N.add 0%N
    ((λ b, default 0%N (b.2 !! c)) <$>
       monthly_sums to_period_M cols (district_contains pat irs))
  = col_sum c (to_row ∘ base <$> district_contains pat irs).
Proof.
  intros Hc _. unfold monthly_sums, col_sum.
  rewrite (group_rows_total Z.compare _ _ _ (λ a, default 0%N (a !! c))
             (λ ir, default 0%N (vals (base ir) !! c))).
  - rewrite <-list_fmap_compose. f_equal. f_equal.
    generalize (district_contains pat irs). intros l.
    induction l as [|ir l IH]; [done|].
    rewrite filter_cons, decide_True by by eexists. by rewrite IH.
  - intros r. rewrite add_cells_lookup, decide_True by done.
    rewrite zero_cells_lookup, decide_True by done. simpl. lia.
  - intros a r. by rewrite add_cells_lookup, decide_True by done.
Qed.

Lemma monthly_sums_keep_totals_witness :
  foldr N.add 0%N
    ((λ b, default 0%N (b.2 !! "age_0_5"%string)) <$>
       sitamarhi_monthly scenario_month
         [busy_row "Sitamarhi"; no_update_row "SITAMARHI";
          busy_row "Sitamarhi"; busy_row "Patna"])
  = 30%N.
Proof.
  unfold sitamarhi_monthly.
  rewrite (monthly_sums_keep_totals scenario_month "Sitamarhi"
             ["age_0_5"; "bio_age_5_17"]%string _ "age_0_5");
    [by vm_compute|by repeat constructor|by vm_compute].
Defined.

(** ** From the records to the index *)

(** X19. End to end: when each of the six index labels is a column of its
    own silo only, every row of the indexed master table whose
    enrolment_pressure + total_updates + 1 is at most 2^53 has as
    enrolment pressure the sum of age_0_5 and age_5_17 over the enrolment
    records with the row's key, and as update count the sum of the two
    demographic and the two biometric update columns over the demographic
    and the biometric records with that key. No record is counted twice. *)
Theorem index_reads_silo_sums (e d b : Frame (Row Z))
    (irs : list IndexedRow) (ir : IndexedRow) :
  (∀ c, c ∈ enrol_columns → c ∈ columns e ∧ (c ∉ columns d) ∧ (c ∉ columns b)) →
  (∀ c, c ∈ demo_columns → c ∈ columns d ∧ (c ∉ columns e) ∧ (c ∉ columns b)) →
  (∀ c, c ∈ bio_columns → c ∈ columns b ∧ (c ∉ columns e) ∧ (c ∉ columns d)) →
  index_engine (merged (groupby_sum e) (groupby_sum d) (groupby_sum b))
  = Some irs →
  ir ∈ irs →
  (dvi_denominator (enrolment_pressure ir) (total_updates ir) ≤ exact_max)%N →
  let k := key (base ir) in
  enrolment_pressure ir
  = (col_sum "age_0_5" (members row_key k (rows e))
     + col_sum "age_5_17" (members row_key k (rows e)))%N
  ∧ total_updates ir
    = (col_sum "demo_age_5_17" (members row_key k (rows d))
       + col_sum "demo_age_17_" (members row_key k (rows d))
       + col_sum "bio_age_5_17" (members row_key k (rows b))
       + col_sum "bio_age_17_" (members row_key k (rows b)))%N
  ∧ DVI ir = dvi (enrolment_pressure ir) (total_updates ir).
Proof.
  intros He Hd Hb Hdf Hin _ k.
  apply index_engine_Some in Hdf as [_ Hdf].
  apply list_elem_of_lookup in Hin as [i Hi].
  destruct (Forall2_lookup_r _ _ _ _ _ Hdf Hi) as (r & Hr & Hir).
  apply list_elem_of_lookup_2 in Hr.
  destruct (merged_cell_sums e d b r Hr) as (HE & HD & HB).
  apply index_row_Some in Hir
    as (a05 & a517 & d517 & d17 & b517 & b17 & H1 & H2 & H3 & H4 & H5 & H6 & ->).
  subst k. cbn [base enrolment_pressure total_updates DVI key].
  assert (∀ c, c ∈ enrol_columns →
            vals r !! c = Some (col_sum c (members row_key (key r) (rows e))))
    as HE' by (intros c Hc; destruct (He c Hc) as (?&?&?); by apply HE).
  assert (∀ c, c ∈ demo_columns →
            vals r !! c = Some (col_sum c (members row_key (key r) (rows d))))
    as HD' by (intros c Hc; destruct (Hd c Hc) as (?&?&?); by apply HD).
  assert (∀ c, c ∈ bio_columns →
            vals r !! c = Some (col_sum c (members row_key (key r) (rows b))))
    as HB' by (intros c Hc; destruct (Hb c Hc) as (?&?&?); by apply HB).
  rewrite HE' in H1, H2 by by repeat constructor.
  rewrite HD' in H3, H4 by by repeat constructor.
  rewrite HB' in H5, H6 by by repeat constructor.
  by simplify_eq.
Qed.

Lemma index_reads_silo_sums_witness :
  let e := mkFrame enrol_columns
             [enrol_row (Some 19723) "Bengaluru" 10 5;
              enrol_row (Some 19723) "Bengaluru" 1 1] in
  let d := mkFrame demo_columns
             [demo_row (Some 19723) "Bengaluru" 1 6;
              demo_row (Some 19723) "Bengaluru" 2 30] in
  let b := mkFrame bio_columns [bio_row (Some 19723) "Mysuru" 3 0] in
  ∃ ir,
    index_engine (merged (groupby_sum e) (groupby_sum d) (groupby_sum b))
    = Some [ir]
    ∧ enrolment_pressure ir = 17%N
    ∧ total_updates ir = 39%N.
Proof.
  intros e d b.
  destruct (index_engine (merged (groupby_sum e) (groupby_sum d) (groupby_sum b)))
    as [[|ir [|]]|] eqn:E; try (vm_compute in E; discriminate).
  exists ir. split; [done|].
  assert (ir = mkIndexed
                 (mkAgg bengaluru_key
                    {[ "age_0_5"%string := 11%N; "age_5_17"%string := 6%N;
                       "demo_age_5_17"%string := 3%N;
                       "demo_age_17_"%string := 36%N;
                       "bio_age_5_17"%string := 0%N;
                       "bio_age_17_"%string := 0%N ]})
                 17 39 (dvi 17 39)) as Hir.
  { vm_compute in E. injection E as <-. by vm_compute. }
  destruct (index_reads_silo_sums e d b [ir] ir) as (Hep & Htu & _).
  - intros c Hc. apply (bool_decide_unpack _).
    repeat (apply elem_of_cons in Hc as [->|Hc]); first [by vm_compute|by apply elem_of_nil in Hc].
  - intros c Hc. apply (bool_decide_unpack _).
    repeat (apply elem_of_cons in Hc as [->|Hc]); first [by vm_compute|by apply elem_of_nil in Hc].
  - intros c Hc. apply (bool_decide_unpack _).
    repeat (apply elem_of_cons in Hc as [->|Hc]); first [by vm_compute|by apply elem_of_nil in Hc].
  - exact E.
  - left.
  - rewrite Hir. by vm_compute.
  - rewrite Hep, Htu, Hir. by vm_compute.
Defined.
